(** * Post-processing pipeline of the audio transcription script

A shallow embedding of the two pure functions of [whisper.py],

- [sentence_segments_merger], which groups word-level timed tokens into
  sentence-level subtitle cues, and
- [translate_phonetic_alphabet], which rewrites NATO phonetic words into
  letters through [re.sub],

of the loops of [main] that build the tokens and the subtitle list, and
of the parameters of [transcribe_audio], together with the properties
stated about them.

Python [str] values are modelled by [string]; a character is a code point
below 256 (Latin-1), on which the character predicates of CPython
([str.isspace], the regex class [\w], [str.lower]) are written out in
full.  Texts with code points from 256 up are not covered.  Time stamps are whatever numbers the caller supplies: the merger
only subtracts and compares them, so it is stated over a class of time
operations, instantiated by the binary64 floats that the transcription
produces. *)

From Stdlib Require Import Bool Arith ZArith Lia List Sorted Ascii String Floats.
From Equations Require Import Equations.
Import ListNotations.

Local Open Scope string_scope.
Local Open Scope bool_scope.

#[local] Set Warnings "-inexact-float".

(* ===================================================================== *)
(** ** Python strings *)
(* ===================================================================== *)

Module PyStr.

Definition code (c : ascii) : N := N_of_ascii c.

Definition between (lo hi : N) (c : ascii) : bool :=
  ((lo <=? code c) && (code c <=? hi))%N.

(** [str.isspace] on one character: TAB..CR, FS..US, SPACE, NEL, NBSP. *)
Definition isspace (c : ascii) : bool :=
  between 9 13 c || between 28 32 c || between 133 133 c || between 160 160 c.

(** The regex class [\w] for [str] patterns: alphanumeric or underscore. *)
Definition is_word (c : ascii) : bool :=
  between 48 57 c || between 65 90 c || between 95 95 c || between 97 122 c
  || between 170 170 c || between 178 179 c || between 181 181 c
  || between 185 186 c || between 188 190 c
  || between 192 214 c || between 216 246 c || between 248 255 c.

(** Lower-casing of one character ([str.lower] and the regex engine's
  case folding agree below 256). *)
Definition to_lower (c : ascii) : ascii :=
  if between 65 90 c || between 192 214 c || between 216 222 c
  then ascii_of_N (code c + 32)
  else c.

Fixpoint lower (s : string) : string :=
  match s with
  | EmptyString => EmptyString
  | String c s' => String (to_lower c) (lower s')
  end.

(** Truth value of a string: [not s] holds of the empty string only. *)
Definition is_empty (s : string) : bool :=
  match s with
  | EmptyString => true
  | String _ _ => false
  end.

Fixpoint lstrip (s : string) : string :=
  match s with
  | EmptyString => EmptyString
  | String c s' => if isspace c then lstrip s' else s
  end.

Fixpoint rstrip (s : string) : string :=
  match s with
  | EmptyString => EmptyString
  | String c s' =>
    let r := rstrip s' in
    if isspace c && is_empty r then EmptyString else String c r
  end.

(** [str.strip()] with no argument. *)
Definition strip (s : string) : string := rstrip (lstrip s).

Fixpoint all_space (s : string) : bool :=
  match s with
  | EmptyString => true
  | String c s' => isspace c && all_space s'
  end.

Fixpoint all_word (s : string) : bool :=
  match s with
  | EmptyString => true
  | String c s' => is_word c && all_word s'
  end.

(** The character that starts [s], if any, is not a word character. *)
Definition word_ends_here (s : string) : bool :=
  match s with
  | EmptyString => true
  | String c _ => negb (is_word c)
  end.

End PyStr.

(* ===================================================================== *)
(** ** Time stamps *)
(* ===================================================================== *)

(** What the merger needs from the numbers in ["start"] and ["end"]: the
  literal [0] of the accumulator template, subtraction and [<]. *)
Class TimeOps (time : Type) : Type := {
  tzero : time;
  tsub : time -> time -> time;
  tlt : time -> time -> bool
}.

#[export] Instance float_time : TimeOps float := {
  tzero := 0%float;
  tsub := PrimFloat.sub;
  tlt := PrimFloat.ltb
}.

(* ===================================================================== *)
(** ** The segment merger *)
(* ===================================================================== *)

Module Merger.
Import PyStr.

Section WithTime.
Context {time : Type} `{TimeOps time}.

(** The dictionaries [{"text": .., "start": .., "end": ..}]. *)
Record segment : Type := mk_segment {
  seg_text : string;
  seg_start : time;
  seg_end : time
}.

Definition set_text (s : segment) (t : string) : segment :=
  mk_segment t (seg_start s) (seg_end s).

Definition current_segment_template : segment := mk_segment "" tzero tzero.

(** The variables of the loop. *)
Record loop_state : Type := mk_state {
  merged_segments : list segment;
  current_segment : segment;
  is_current_segment_empty : bool
}.

Definition initial_state : loop_state :=
  mk_state [] (mk_segment "" tzero tzero) true.

(** The accumulator seeded from a token. *)
Definition seed (seg : segment) : segment :=
  mk_segment (strip (seg_text seg)) (seg_start seg) (seg_end seg).

(** The test of the [if] that decides between absorbing and sealing. *)
Definition can_absorb (max_text_len : Z) (max_segment_interval : time)
    (cur : segment) (segment_text : string) (seg : segment) : bool :=
  tlt (tsub (seg_start seg) (seg_end cur)) max_segment_interval
  && (Z.of_nat (String.length (seg_text cur ++ " " ++ segment_text))
      <? max_text_len)%Z.

Definition absorb (cur : segment) (segment_text : string) (seg : segment)
    : segment :=
  mk_segment (strip (seg_text cur ++ " " ++ segment_text))
             (seg_start cur) (seg_end seg).

(** A sealed cue: its text is stripped when it is appended. *)
Definition seal (cur : segment) : segment :=
  set_text cur (strip (seg_text cur)).

(** One iteration of the [for] loop. *)
Definition merger_step (max_text_len : Z) (max_segment_interval : time)
    (st : loop_state) (seg : segment) : loop_state :=
  let segment_text := strip (seg_text seg) in
  if is_empty segment_text then st
  else if is_current_segment_empty st then
    mk_state (merged_segments st) (seed seg) false
  else
    let cur := current_segment st in
    if can_absorb max_text_len max_segment_interval cur segment_text seg
    then mk_state (merged_segments st) (absorb cur segment_text seg) false
    else mk_state (merged_segments st ++ [seal cur]) (seed seg) false.

Definition merger_loop (max_text_len : Z) (max_segment_interval : time)
    (segments : list segment) : loop_state :=
  fold_left (merger_step max_text_len max_segment_interval)
            segments initial_state.

Definition sentence_segments_merger (segments : list segment)
    (max_text_len : Z) (max_segment_interval : time) : list segment :=
  match segments with
  | [] => []
  | _ =>
      let st := merger_loop max_text_len max_segment_interval segments in
      if is_current_segment_empty st then merged_segments st
      else merged_segments st ++ [seal (current_segment st)]
  end.

(** *** Which tokens a cue is made of

  The loop does not record the tokens a cue absorbed.  The annotated loop
  below runs [merger_step] unchanged and keeps, beside its state, the tokens
  of every sealed cue and of the open one. *)

Record traced_state : Type := mk_traced {
  loop_of : loop_state;
  sealed_groups : list (list segment);
  open_group : list segment
}.

Definition traced_initial : traced_state := mk_traced initial_state [] [].

Definition traced_step (max_text_len : Z) (max_segment_interval : time)
    (ts : traced_state) (seg : segment) : traced_state :=
  let st := loop_of ts in
  let st' := merger_step max_text_len max_segment_interval st seg in
  let segment_text := strip (seg_text seg) in
  if is_empty segment_text then
    mk_traced st' (sealed_groups ts) (open_group ts)
  else if is_current_segment_empty st then
    mk_traced st' (sealed_groups ts) [seg]
  else if can_absorb max_text_len max_segment_interval
            (current_segment st) segment_text seg
  then mk_traced st' (sealed_groups ts) (open_group ts ++ [seg])
  else mk_traced st' (sealed_groups ts ++ [open_group ts]) [seg].

Definition traced_loop (max_text_len : Z) (max_segment_interval : time)
    (segments : list segment) : traced_state :=
  fold_left (traced_step max_text_len max_segment_interval)
            segments traced_initial.

(** The tokens of each output cue, in output order. *)
Definition merger_groups (segments : list segment)
    (max_text_len : Z) (max_segment_interval : time) : list (list segment) :=
  match segments with
  | [] => []
  | _ =>
      let ts := traced_loop max_text_len max_segment_interval segments in
      if is_current_segment_empty (loop_of ts) then sealed_groups ts
      else sealed_groups ts ++ [open_group ts]
  end.

(** The accumulator after absorbing the tokens [g], one after the other. *)
Definition accumulate (g : list segment) : segment :=
  match g with
  | [] => current_segment_template
  | t :: ts =>
      fold_left (fun cur s => absorb cur (strip (seg_text s)) s) ts (seed t)
  end.

(** The cue that the tokens [g] make. *)
Definition cue_of_group (g : list segment) : segment := seal (accumulate g).

(** A token the loop does not skip. *)
Definition has_text (seg : segment) : bool :=
  negb (is_empty (strip (seg_text seg))).

(** The gap test between two tokens that follow each other in a cue. *)
Definition gap_ok (max_segment_interval : time) (t1 t2 : segment) : Prop :=
  tlt (tsub (seg_start t2) (seg_end t1)) max_segment_interval = true.

(** The two outcomes of an iteration on a token with text, once a cue is
  open: the token extends the open cue, or the open cue is appended to the
  output and a new one is seeded from the token. *)
Definition absorbs (st : loop_state) (seg : segment) (st' : loop_state)
    : Prop :=
  merged_segments st' = merged_segments st
  /\ current_segment st'
     = absorb (current_segment st) (strip (seg_text seg)) seg
  /\ is_current_segment_empty st' = false.

Definition seals_and_opens (st : loop_state) (seg : segment)
    (st' : loop_state) : Prop :=
  merged_segments st'
    = (merged_segments st ++ [seal (current_segment st)])%list
  /\ current_segment st' = seed seg
  /\ is_current_segment_empty st' = false.

(** What the annotated loop maintains: the output so far is made of the
  sealed groups, and the accumulator of the open group. *)
Definition traced_inv (ts : traced_state) : Prop :=
  merged_segments (loop_of ts) = map cue_of_group (sealed_groups ts)
  /\ if is_current_segment_empty (loop_of ts)
     then sealed_groups ts = [] /\ open_group ts = []
     else open_group ts <> []
          /\ current_segment (loop_of ts) = accumulate (open_group ts).

(** All the groups of a state, sealed and open. *)
Definition all_groups (ts : traced_state) : list (list segment) :=
  (sealed_groups ts ++ [open_group ts])%list.

End WithTime.

Arguments segment time : clear implicits.
Arguments loop_state time : clear implicits.
Arguments traced_state time : clear implicits.

(** The tokens of the documented scenario, on binary64 time stamps. *)
Definition scenario_tokens : list (segment float) :=
  [ mk_segment "a" 0.0%float 0.2%float;
    mk_segment "b" 0.3%float 0.5%float;
    mk_segment "c" 3.0%float 3.2%float ].

(** A token that starts exactly [2.0] seconds after the open cue ends. *)
Definition boundary_state : loop_state float :=
  mk_state [] (mk_segment "a" 0.0%float 0.5%float) false.

Definition boundary_token : segment float :=
  mk_segment "b" 2.5%float 3.0%float.

(** A token longer than a limit of three characters, then a short one. *)
Definition long_token : segment float :=
  mk_segment "hello" 0.0%float 1.0%float.

Definition long_then_short : list (segment float) :=
  [ long_token; mk_segment "a" 1.0%float 2.0%float ].

(** A token made of spaces. *)
Definition blank_token : segment float :=
  mk_segment "  " 1.0%float 2.0%float.

(** [<=] on binary64 numbers, as a relation. *)
Definition float_le (a b : float) : Prop := PrimFloat.leb a b = true.

End Merger.

(* ===================================================================== *)
(** ** The phonetic translator *)
(* ===================================================================== *)

Module Phonetic.
Import PyStr.

(** The dictionary literal, in insertion order (the order of [keys()]). *)
Definition phonetic_to_letter : list (string * string) :=
  [ ("alpha", "A"); ("bravo", "B"); ("charlie", "C"); ("delta", "D");
    ("echo", "E"); ("foxtrot", "F"); ("golf", "G"); ("hotel", "H");
    ("india", "I"); ("juliet", "J"); ("kilo", "K"); ("lima", "L");
    ("mike", "M"); ("november", "N"); ("oscar", "O"); ("papa", "P");
    ("quebec", "Q"); ("romeo", "R"); ("sierra", "S"); ("tango", "T");
    ("uniform", "U"); ("victor", "V"); ("whiskey", "W"); ("xray", "X");
    ("yankee", "Y"); ("zulu", "Z") ].

(** [d[k]]: [None] stands for [KeyError]. *)
Fixpoint dict_get (d : list (string * string)) (k : string) : option string :=
  match d with
  | [] => None
  | (k', v) :: d' => if String.eqb k' k then Some v else dict_get d' k
  end.

Definition keys (d : list (string * string)) : list string := map fst d.

Definition ESC : ascii := ascii_of_nat 27.

(** The f-string that frames [letter] by the bold and reset sequences. *)
Definition bold (letter : string) : string :=
  String ESC ("[1m" ++ letter ++ String ESC "[0m").

(** *** The regex [\b(?:w1|...|wn)\b] under [re.IGNORECASE]

  The engine's position is the text that remains, with [thatp], whether
  the character before it is a word character (false at the start of the
  text).  [re.escape] leaves the keys as they are: they are letters. *)

Definition this_is_word (s : string) : bool :=
  match s with
  | EmptyString => false
  | String c _ => is_word c
  end.

(** [\b]: exactly one of the two neighbouring characters is a word one. *)
Definition at_boundary (thatp : bool) (s : string) : bool :=
  xorb thatp (this_is_word s).

(** A literal of the pattern against a character of the text. *)
Definition literal_ignore (p c : ascii) : bool :=
  Ascii.eqb (to_lower c) (to_lower p).

(** The literal [k] at the head of [s]: the text it matched and the rest. *)
Fixpoint match_literal_ignore (k s : string) : option (string * string) :=
  match k with
  | EmptyString => Some (EmptyString, s)
  | String p k' =>
      match s with
      | EmptyString => None
      | String c s' =>
          if literal_ignore p c then
            match match_literal_ignore k' s' with
            | Some (m, rest) => Some (String c m, rest)
            | None => None
            end
          else None
      end
  end.

(** Whether the last character consumed is a word character. *)
Fixpoint thatp_after (thatp : bool) (m : string) : bool :=
  match m with
  | EmptyString => thatp
  | String c m' => thatp_after (is_word c) m'
  end.

(** The alternatives in order, each followed by the closing [\b]. *)
Fixpoint match_alternatives (words : list string) (thatp : bool) (s : string)
    : option (string * string) :=
  match words with
  | [] => None
  | k :: ks =>
      match match_literal_ignore k s with
      | Some (m, rest) =>
          if at_boundary (thatp_after thatp m) rest then Some (m, rest)
          else match_alternatives ks thatp s
      | None => match_alternatives ks thatp s
      end
  end.

Definition pattern_match (words : list string) (thatp : bool) (s : string)
    : option (string * string) :=
  if at_boundary thatp s then match_alternatives words thatp s else None.

(** A value together with the equation that defines it. *)
Definition inspect {A : Type} (x : A) : { y : A | x = y } := exist _ x eq_refl.

(** [re.sub(pattern, repl, text)]: at each position a match is replaced by
  [repl] of its text and the scan resumes after it; otherwise the character
  is copied.  An exception raised by [repl] ends the scan.  The pattern
  needs at least one character, so it matches neither the empty text nor
  at the end of the text; the second clause also stands for a match of no
  character, which the alternatives of this pattern never give. *)
Equations? re_sub (words : list string) (repl : string -> option string)
    (thatp : bool) (s : string) : option string by wf (String.length s) lt :=
  re_sub words repl thatp EmptyString := Some EmptyString;
  re_sub words repl thatp (String c s')
    with inspect (pattern_match words thatp (String c s')) := {
    | exist _ (Some (String a m, rest)) Heq =>
        match repl (String a m) with
        | None => None
        | Some r =>
            match re_sub words repl (thatp_after thatp (String a m)) rest with
            | None => None
            | Some out => Some (r ++ out)
            end
        end
    | exist _ _ Heq =>
        match re_sub words repl (is_word c) s' with
        | None => None
        | Some out => Some (String c out)
        end }.
Proof.
  all: try (simpl; lia).
  assert (L : forall k t m0 r0, match_literal_ignore k t = Some (m0, r0) ->
              String.length t = String.length m0 + String.length r0).
  { clear. induction k as [|p k IH]; intros t m0 r0 E; simpl in E.
    - injection E as <- <-. reflexivity.
    - destruct t as [|d t]; [discriminate|].
      destruct (literal_ignore p d); [|discriminate].
      destruct (match_literal_ignore k t) as [[m1 r1]|] eqn:E1; [|discriminate].
      injection E as <- <-. simpl. rewrite (IH _ _ _ E1). reflexivity. }
  assert (A : forall ws b t m0 r0, match_alternatives ws b t = Some (m0, r0) ->
              String.length t = String.length m0 + String.length r0).
  { clear - L. induction ws as [|k ws IH]; intros b t m0 r0 E; simpl in E;
      [discriminate|].
    destruct (match_literal_ignore k t) as [[m1 r1]|] eqn:E1; [|eauto].
    destruct (at_boundary _ r1); [|eauto].
    injection E as <- <-. eauto. }
  unfold pattern_match in Heq.
  destruct (at_boundary thatp (String c s')); [|discriminate].
  apply A in Heq. simpl in *. lia.
Qed.

(** The callback given to [re.sub]; [m] is [match.group(0)]. *)
Definition replace_match_and_bold (m : string) : option string :=
  let matched_word := lower m in
  match dict_get phonetic_to_letter matched_word with
  | None => None
  | Some letter =>
      if String.eqb matched_word "november" && String.eqb letter "N"
      then Some (bold letter)
      else Some letter
  end.

Definition translate_phonetic_alphabet (text : string) : option string :=
  re_sub (keys phonetic_to_letter) replace_match_and_bold false text.

(** Whether [w] is one of the alternatives, letter case apart. *)
Definition is_key_ci (words : list string) (w : string) : bool :=
  existsb (fun k => String.eqb (lower k) (lower w)) words.

(** The result [o] with [f] applied to the text, if there is one. *)
Definition then_text (f : string -> string) (o : option string)
    : option string :=
  match o with
  | None => None
  | Some out => Some (f out)
  end.

(** The alternatives are non-empty words. *)
Definition plain_words (words : list string) : Prop :=
  Forall (fun k => k <> "" /\ all_word k = true) words.

End Phonetic.

(* ===================================================================== *)
(** ** The subtitle list handed to the [srt] package *)
(* ===================================================================== *)

(** [main] turns the cues into [srt.Subtitle] objects and gives them to
  [srt.compose], a function of the third-party [srt] package.  Only the
  construction of the list is code of the script; [timedelta] is taken as
  it is, [None] standing for the exception it raises on a number it cannot
  represent. *)
Module Serializer.
Import PyStr Merger.

Section WithTime.
Context {time delta : Type}.
Variable timedelta : time -> option delta.

Record Subtitle : Type := mk_Subtitle {
  index : nat;
  start : delta;
  end_ : delta;
  content : string
}.

(** The loop over [enumerate(result_merged)], counting from [i]. *)
Fixpoint srt_list_from (i : nat) (result_merged : list (segment time))
    : option (list Subtitle) :=
  match result_merged with
  | [] => Some []
  | v :: rest =>
      match timedelta (seg_start v), timedelta (seg_end v) with
      | Some s, Some e =>
          match srt_list_from (S i) rest with
          | Some l => Some (mk_Subtitle i s e (strip (seg_text v)) :: l)
          | None => None
          end
      | _, _ => None
      end
  end.

Definition result_srt_list (result_merged : list (segment time))
    : option (list Subtitle) :=
  srt_list_from 0 result_merged.

End WithTime.

Arguments Subtitle delta : clear implicits.

End Serializer.


(* ===================================================================== *)
(** ** Words for the shape of the cues *)
(* ===================================================================== *)

Module CueShape.
Import PyStr Merger.

Section WithTime.
Context {time : Type} `{TimeOps time}.

(** The trimmed texts of the tokens of a group, joined by single spaces. *)
Definition joined_text (g : list (segment time)) : string :=
  String.concat " " (map (fun s => strip (seg_text s)) g).

(** The result of the function from the state the loop ends in. *)
Definition result_of (st : loop_state time) : list (segment time) :=
  if is_current_segment_empty st then merged_segments st
  else (merged_segments st ++ [seal (current_segment st)])%list.

End WithTime.

(** A binary64 gap threshold that no gap is below. *)
Definition nan_gap : float := PrimFloat.nan.

End CueShape.


(* ===================================================================== *)
(** ** Words for the shape of a text *)
(* ===================================================================== *)

Module TextShape.
Import PyStr Phonetic.

(** One of the 52 letters [A]..[Z], [a]..[z]. *)
Definition is_ascii_letter (c : ascii) : bool :=
  between 65 90 c || between 97 122 c.

(** A text without any of these letters, such as the index and timing
  lines of a subtitle file. *)
Fixpoint no_letter (s : string) : bool :=
  match s with
  | EmptyString => true
  | String c s' => negb (is_ascii_letter c) && no_letter s'
  end.

(** The pattern matches at no position of [s], which follows a word
  character or not according to [thatp]. *)
Definition no_match (words : list string) (thatp : bool) (s : string)
    : Prop :=
  forall a b, s = a ++ b -> pattern_match words (thatp_after thatp a) b = None.

End TextShape.


(* ===================================================================== *)
(** ** The callers: from the transcription to the merger *)
(* ===================================================================== *)

Module Pipeline.
Import PyStr Merger.

Section WithTime.
Context {time : Type} `{TimeOps time}.

(** A word of the transcription: its text and its times. *)
Record word_info : Type := mk_word {
  word : string;
  word_start : time;
  word_end : time
}.

(** A segment of the transcription.  [words] is [None] when the object has
  no attribute [words] or when the attribute is [None]. *)
Record transcribed : Type := mk_transcribed {
  words : option (list word_info)
}.

(** The tokens of one segment: the words whose trimmed text is not empty,
  with their trimmed text. *)
Definition tokens_of_words (ws : list word_info) : list (segment time) :=
  flat_map
    (fun j =>
       if is_empty (strip (word j)) then []
       else [mk_segment (strip (word j)) (word_start j) (word_end j)])
    ws.

(** The two nested loops of [main] that fill [segments_lst]. *)
Definition segments_lst (segments : list transcribed)
    : list (segment time) :=
  flat_map
    (fun i =>
       match words i with
       | Some ws => tokens_of_words ws
       | None => []
       end)
    segments.

End WithTime.

Arguments word_info time : clear implicits.
Arguments transcribed time : clear implicits.

(** A transcription with a blank word and a segment without words. *)
Definition sample_transcription : list (transcribed float) :=
  [ mk_transcribed (Some [ mk_word " Alpha" 0.0%float 0.4%float;
                           mk_word "  " 0.4%float 0.5%float;
                           mk_word " one" 0.5%float 0.9%float ]);
    mk_transcribed None ].

End Pipeline.


(* ===================================================================== *)
(** ** The call of the speech model *)
(* ===================================================================== *)

Module Transcription.

#[local] Set Warnings "-register-all".

(** The values that the parameters of the call take. *)
Inductive pyvalue : Type :=
| PInt (z : Z)
| PBool (b : bool)
| PFloat (f : float)
| PStr (s : string)
| PDict (d : list (string * pyvalue)).

(** A [dict] with string keys, in insertion order. *)
Definition pydict : Type := list (string * pyvalue).

(** [d.get(k)]. *)
Fixpoint dict_lookup (d : pydict) (k : string) : option pyvalue :=
  match d with
  | [] => None
  | (k', v') :: d' => if String.eqb k' k then Some v' else dict_lookup d' k
  end.

(** [d[k] = v]: the value of a key that is there is replaced in place, a
  new key comes last. *)
Fixpoint dict_set (d : pydict) (k : string) (v : pyvalue) : pydict :=
  match d with
  | [] => [(k, v)]
  | (k', v') :: d' =>
      if String.eqb k' k then (k', v) :: d' else (k', v') :: dict_set d' k v
  end.

(** [d.update(other)]. *)
Definition dict_update (d other : pydict) : pydict :=
  fold_left (fun acc kv => dict_set acc (fst kv) (snd kv)) other d.

Definition default_params : pydict :=
  [ ("beam_size", PInt 5);
    ("word_timestamps", PBool true);
    ("vad_filter", PBool true);
    ("vad_parameters",
     PDict [ ("threshold", PFloat 0.6%float);
             ("min_speech_duration_ms", PInt 250);
             ("max_speech_duration_s", PFloat PrimFloat.infinity);
             ("min_silence_duration_ms", PInt 100);
             ("speech_pad_ms", PInt 400) ]) ].

Section WithModel.
(** What [model.transcribe] gives: the segments, once the generator has
  been run, and the information on the recording. *)
Variables S I : Type.

(** The model as a function of the file name and of the parameters;
  [None] stands for any exception raised inside the [try] block. *)
Definition whisper_model : Type := string -> pydict -> option (list S * I).

(** [transcribe_audio(model, filename, **kwargs)]; the result [None]
  stands for the pair [(None, None)].  What is printed is left out. *)
Definition transcribe_audio (model : option whisper_model)
    (filename : string) (kwargs : pydict) : option (list S * I) :=
  match model with
  | None => None
  | Some m => m filename (dict_update default_params kwargs)
  end.

End WithModel.

(** Keyword arguments that change the beam and the voice detection. *)
Definition sample_kwargs : pydict :=
  [ ("beam_size", PInt 1);
    ("vad_parameters", PDict [ ("threshold", PFloat 0.5%float) ]);
    ("language", PStr "en") ].

End Transcription.


(* ===================================================================== *)
(** ** Words for the breaks between cues *)
(* ===================================================================== *)

Module CueBreaks.
Import PyStr Merger.

Section WithTime.
Context {time : Type} `{TimeOps time}.
Variables (max_text_len : Z) (max_segment_interval : time).

(** The first token of the group [g'] fails the test of the loop against
  the accumulator of the group [g]. *)
Definition break_forced (g g' : list (segment time)) : Prop :=
  match g' with
  | [] => False
  | t :: _ =>
      can_absorb max_text_len max_segment_interval
                 (accumulate g) (strip (seg_text t)) t = false
  end.

(** The groups of a state of the annotated loop, in order. *)
Definition groups_so_far (ts : traced_state time) : list (list (segment time)) :=
  if is_current_segment_empty (loop_of ts) then sealed_groups ts
  else (sealed_groups ts ++ [open_group ts])%list.

End WithTime.

(** Tokens that touch: each one starts when the one before ends. *)
Definition touching_tokens : list (segment float) :=
  [ mk_segment "a" 0.0%float 0.5%float;
    mk_segment "b" 0.5%float 1.0%float;
    mk_segment "c" 4.0%float 4.5%float ].

End CueBreaks.


(* ===================================================================== *)
(** ** Facts about strings *)
(* ===================================================================== *)

Module PyStrFacts.
Import PyStr.

Lemma string_length_app (a b : string) :
  String.length (a ++ b) = String.length a + String.length b.
Proof. induction a as [|c a IH]; simpl; [reflexivity | now rewrite IH]. Qed.

Lemma is_empty_true (s : string) : is_empty s = true <-> s = "".
Proof. destruct s; simpl; split; intros E; congruence. Qed.

Lemma is_empty_false (s : string) : is_empty s = false <-> s <> "".
Proof. destruct s; simpl; split; intros E; congruence. Qed.

Lemma lstrip_length (s : string) : String.length (lstrip s) <= String.length s.
Proof.
  induction s as [|c s IH]; simpl; [lia|].
  destruct (isspace c); simpl; lia.
Qed.

Lemma rstrip_length (s : string) : String.length (rstrip s) <= String.length s.
Proof.
  induction s as [|c s IH]; simpl; [lia|].
  destruct (isspace c && is_empty (rstrip s)); simpl; lia.
Qed.

Lemma strip_length (s : string) : String.length (strip s) <= String.length s.
Proof.
  unfold strip. pose proof (rstrip_length (lstrip s)).
  pose proof (lstrip_length s). lia.
Qed.

Lemma all_space_app (a b : string) :
  all_space (a ++ b) = all_space a && all_space b.
Proof.
  induction a as [|c a IH]; simpl; [reflexivity|].
  now rewrite IH, andb_assoc.
Qed.

Lemma lstrip_all_space (s : string) : all_space (lstrip s) = all_space s.
Proof.
  induction s as [|c s IH]; simpl; [reflexivity|].
  destruct (isspace c) eqn:E; simpl; [exact IH | now rewrite E].
Qed.

Lemma rstrip_empty (s : string) : rstrip s = "" <-> all_space s = true.
Proof.
  induction s as [|c s IH]; simpl; [tauto|].
  destruct (isspace c); simpl.
  - destruct (rstrip s) eqn:E; simpl; split; intros K;
      try discriminate; try reflexivity; try (now apply IH).
    apply IH in K. discriminate.
  - split; discriminate.
Qed.

(** A string strips to nothing exactly when it is made of spaces. *)
Lemma strip_empty (s : string) : strip s = "" <-> all_space s = true.
Proof. unfold strip. now rewrite rstrip_empty, lstrip_all_space. Qed.

Lemma rstrip_all_space (s : string) : all_space (rstrip s) = all_space s.
Proof.
  induction s as [|c s IH]; simpl; [reflexivity|].
  destruct (isspace c) eqn:E; simpl.
  - destruct (rstrip s) eqn:R; simpl.
    + symmetry. apply rstrip_empty. exact R.
    + rewrite E. simpl. rewrite <- IH. reflexivity.
  - now rewrite E.
Qed.

Lemma lstrip_head (s : string) :
  match lstrip s with EmptyString => True | String c _ => isspace c = false end.
Proof.
  induction s as [|c s IH]; simpl; [exact I|].
  destruct (isspace c) eqn:E; [exact IH | exact E].
Qed.

Lemma strip_head (s : string) :
  match strip s with EmptyString => True | String c _ => isspace c = false end.
Proof.
  unfold strip. pose proof (lstrip_head s) as Hd.
  destruct (lstrip s) as [|c r]; simpl; [exact I|].
  rewrite Hd. simpl. exact Hd.
Qed.

(** What is left by [strip], if anything, is not made of spaces. *)
Lemma strip_not_all_space (s : string) :
  strip s <> "" -> all_space (strip s) = false.
Proof.
  intros N. pose proof (strip_head s) as Hd.
  destruct (strip s) as [|c r]; [congruence|]. simpl. now rewrite Hd.
Qed.

Lemma not_all_space_strip (s : string) :
  all_space s = false -> strip s <> "".
Proof. intros E K. apply strip_empty in K. congruence. Qed.

(** Joining a token with text to anything leaves text after stripping. *)
Lemma strip_join_nonempty (cur t : string) :
  all_space t = false -> strip (cur ++ " " ++ t) <> "".
Proof.
  intros E. apply not_all_space_strip.
  rewrite !all_space_app, E. now rewrite !andb_false_r.
Qed.

Lemma rstrip_idem (s : string) : rstrip (rstrip s) = rstrip s.
Proof.
  induction s as [|c s IH]; simpl; [reflexivity|].
  destruct (isspace c && is_empty (rstrip s)) eqn:E; simpl; [reflexivity|].
  now rewrite IH, E.
Qed.

Lemma lstrip_fixed (s : string) :
  match s with EmptyString => True | String c _ => isspace c = false end ->
  lstrip s = s.
Proof. destruct s as [|c s]; simpl; [reflexivity|]. now intros ->. Qed.

(** Stripping twice is stripping once. *)
Lemma strip_idem (s : string) : strip (strip s) = strip s.
Proof.
  unfold strip at 1. rewrite (lstrip_fixed (strip s)) by apply strip_head.
  unfold strip. apply rstrip_idem.
Qed.


End PyStrFacts.

(* ===================================================================== *)
(** ** Facts about the segment merger *)
(* ===================================================================== *)

Module MergerFacts.
Import PyStr PyStrFacts Merger.
Local Open Scope list_scope.

Section WithTime.
Context {time : Type} `{TimeOps time}.
Variables (max_text_len : Z) (max_segment_interval : time).

Local Abbreviation step := (merger_step max_text_len max_segment_interval).
Local Abbreviation tstep := (traced_step max_text_len max_segment_interval).
Local Abbreviation absorbable := (can_absorb max_text_len max_segment_interval).

Lemma has_text_true (seg : segment time) :
  has_text seg = true <-> strip (seg_text seg) <> "".
Proof.
  unfold has_text. rewrite negb_true_iff. apply is_empty_false.
Qed.

Lemma has_text_false (seg : segment time) :
  has_text seg = false <-> strip (seg_text seg) = "".
Proof.
  unfold has_text. rewrite negb_false_iff. apply is_empty_true.
Qed.

(** *** The four cases of an iteration *)

Lemma step_skip st seg : has_text seg = false -> step st seg = st.
Proof.
  intros E. apply has_text_false in E. unfold merger_step. now rewrite E.
Qed.

Lemma step_open st seg :
  has_text seg = true -> is_current_segment_empty st = true ->
  step st seg = mk_state (merged_segments st) (seed seg) false.
Proof.
  intros E F. unfold merger_step, has_text in *.
  apply negb_true_iff in E. now rewrite E, F.
Qed.

Lemma step_absorb st seg :
  has_text seg = true -> is_current_segment_empty st = false ->
  absorbable (current_segment st) (strip (seg_text seg)) seg = true ->
  step st seg
  = mk_state (merged_segments st)
             (absorb (current_segment st) (strip (seg_text seg)) seg) false.
Proof.
  intros E F A. unfold merger_step, has_text in *.
  apply negb_true_iff in E. now rewrite E, F, A.
Qed.

Lemma step_seal st seg :
  has_text seg = true -> is_current_segment_empty st = false ->
  absorbable (current_segment st) (strip (seg_text seg)) seg = false ->
  step st seg
  = mk_state (merged_segments st ++ [seal (current_segment st)])
             (seed seg) false.
Proof.
  intros E F A. unfold merger_step, has_text in *.
  apply negb_true_iff in E. now rewrite E, F, A.
Qed.

Lemma tstep_skip ts seg : has_text seg = false -> tstep ts seg = ts.
Proof.
  intros E. unfold traced_step. rewrite (step_skip _ _ E).
  apply has_text_false in E. rewrite E. now destruct ts.
Qed.

Lemma tstep_open ts seg :
  has_text seg = true -> is_current_segment_empty (loop_of ts) = true ->
  tstep ts seg
  = mk_traced (mk_state (merged_segments (loop_of ts)) (seed seg) false)
              (sealed_groups ts) [seg].
Proof.
  intros E F. unfold traced_step. rewrite (step_open _ _ E F).
  unfold has_text in E. apply negb_true_iff in E. now rewrite E, F.
Qed.

Lemma tstep_absorb ts seg :
  has_text seg = true -> is_current_segment_empty (loop_of ts) = false ->
  absorbable (current_segment (loop_of ts)) (strip (seg_text seg)) seg = true ->
  tstep ts seg
  = mk_traced
      (mk_state (merged_segments (loop_of ts))
         (absorb (current_segment (loop_of ts)) (strip (seg_text seg)) seg)
         false)
      (sealed_groups ts) (open_group ts ++ [seg]).
Proof.
  intros E F A. unfold traced_step. rewrite (step_absorb _ _ E F A).
  unfold has_text in E. apply negb_true_iff in E. now rewrite E, F, A.
Qed.

Lemma tstep_seal ts seg :
  has_text seg = true -> is_current_segment_empty (loop_of ts) = false ->
  absorbable (current_segment (loop_of ts)) (strip (seg_text seg)) seg = false ->
  tstep ts seg
  = mk_traced
      (mk_state
         (merged_segments (loop_of ts) ++ [seal (current_segment (loop_of ts))])
         (seed seg) false)
      (sealed_groups ts ++ [open_group ts]) [seg].
Proof.
  intros E F A. unfold traced_step. rewrite (step_seal _ _ E F A).
  unfold has_text in E. apply negb_true_iff in E. now rewrite E, F, A.
Qed.

(** Case analysis on an iteration of the annotated loop. *)
Ltac step_cases ts seg :=
  let E := fresh "Etext" in
  let F := fresh "Eopen" in
  let A := fresh "Eabs" in
  destruct (has_text seg) eqn:E;
  [ destruct (is_current_segment_empty (loop_of ts)) eqn:F;
    [ rewrite (tstep_open ts seg E F)
    | destruct (absorbable (current_segment (loop_of ts))
                  (strip (seg_text seg)) seg) eqn:A;
      [ rewrite (tstep_absorb ts seg E F A)
      | rewrite (tstep_seal ts seg E F A) ] ]
  | rewrite (tstep_skip ts seg E) ].

(** *** The annotation does not change the loop *)

Lemma traced_step_loop ts seg : loop_of (tstep ts seg) = step (loop_of ts) seg.
Proof.
  unfold traced_step.
  destruct (is_empty _); [reflexivity|].
  destruct (is_current_segment_empty _); [reflexivity|].
  destruct (absorbable _ _ _); reflexivity.
Qed.

Lemma traced_fold_loop segs ts :
  loop_of (fold_left tstep segs ts) = fold_left step segs (loop_of ts).
Proof.
  revert ts. induction segs as [|seg segs IH]; intros ts; simpl;
    [reflexivity|].
  now rewrite IH, traced_step_loop.
Qed.

Lemma traced_loop_loop segs :
  loop_of (traced_loop max_text_len max_segment_interval segs)
  = merger_loop max_text_len max_segment_interval segs.
Proof. apply traced_fold_loop. Qed.

(** *** The invariant of the annotated loop *)

Lemma accumulate_snoc (g : list (segment time)) s :
  g <> [] ->
  accumulate (g ++ [s]) = absorb (accumulate g) (strip (seg_text s)) s.
Proof.
  destruct g as [|t g]; [congruence|]. intros _. simpl.
  now rewrite fold_left_app.
Qed.

Lemma traced_inv_initial : traced_inv (@traced_initial time _).
Proof. repeat split. Qed.

Lemma traced_inv_step ts seg : traced_inv ts -> traced_inv (tstep ts seg).
Proof.
  intros [Hm Ho]. step_cases ts seg; [| | |split; assumption].
  - destruct Ho as [Hs _].
    split; simpl; [exact Hm | split; [discriminate | reflexivity]].
  - destruct Ho as [Hne Hc].
    split; simpl; [exact Hm|]. split.
    + intros K. apply app_eq_nil in K. destruct K; discriminate.
    + rewrite accumulate_snoc by exact Hne. now rewrite Hc.
  - destruct Ho as [Hne Hc].
    split; simpl.
    + rewrite map_app, Hm. simpl. unfold cue_of_group. now rewrite Hc.
    + split; [discriminate | reflexivity].
Qed.

Lemma traced_inv_fold segs ts :
  traced_inv ts -> traced_inv (fold_left tstep segs ts).
Proof.
  revert ts. induction segs as [|seg segs IH]; intros ts I; simpl;
    [exact I|].
  apply IH, traced_inv_step, I.
Qed.

(** The output is made, cue by cue, of the groups of the annotated loop. *)
Lemma merger_by_groups segs :
  sentence_segments_merger segs max_text_len max_segment_interval
  = map cue_of_group (merger_groups segs max_text_len max_segment_interval).
Proof.
  destruct segs as [|s0 segs]; [reflexivity|].
  unfold sentence_segments_merger, merger_groups.
  rewrite <- traced_loop_loop.
  pose proof (traced_inv_fold (s0 :: segs) _ traced_inv_initial) as [Hm Ho].
  fold (traced_loop max_text_len max_segment_interval (s0 :: segs)) in Hm, Ho.
  set (ts := traced_loop max_text_len max_segment_interval (s0 :: segs)) in *.
  cbv zeta. destruct (is_current_segment_empty (loop_of ts)).
  - exact Hm.
  - destruct Ho as [_ Hc]. rewrite map_app, Hm. simpl.
    unfold cue_of_group. now rewrite Hc.
Qed.

(** *** Every token with text goes to exactly one group *)

Lemma all_groups_step ts seg :
  traced_inv ts ->
  List.concat (all_groups (tstep ts seg))
  = List.concat (all_groups ts) ++ (if has_text seg then [seg] else []).
Proof.
  intros [_ Ho]. unfold all_groups. step_cases ts seg; simpl;
    rewrite ?concat_app; simpl; rewrite ?app_nil_r, <- ?app_assoc;
    try reflexivity.
  destruct Ho as [_ Hg]. now rewrite Hg.
Qed.

Lemma all_groups_fold segs ts :
  traced_inv ts ->
  List.concat (all_groups (fold_left tstep segs ts))
  = List.concat (all_groups ts) ++ filter has_text segs.
Proof.
  revert ts. induction segs as [|seg segs IH]; intros ts I; simpl.
  - now rewrite app_nil_r.
  - rewrite IH by (apply traced_inv_step, I).
    rewrite all_groups_step by exact I. rewrite <- app_assoc.
    destruct (has_text seg); reflexivity.
Qed.

Lemma merger_groups_concat segs :
  List.concat (merger_groups segs max_text_len max_segment_interval)
  = filter has_text segs.
Proof.
  destruct segs as [|s0 segs]; [reflexivity|].
  unfold merger_groups.
  pose proof (all_groups_fold (s0 :: segs) _ traced_inv_initial) as C.
  pose proof (traced_inv_fold (s0 :: segs) _ traced_inv_initial) as [_ Ho].
  fold (traced_loop max_text_len max_segment_interval (s0 :: segs)) in C, Ho.
  set (ts := traced_loop max_text_len max_segment_interval (s0 :: segs)) in *.
  cbv zeta. unfold all_groups in C. simpl in C.
  destruct (is_current_segment_empty (loop_of ts)).
  - destruct Ho as [Hs Hg]. rewrite Hs, Hg in C. rewrite Hs. exact C.
  - exact C.
Qed.

(** *** An induction principle on the groups

  A property of groups holds of every group of the result as soon as it
  holds of a group of one token with text and is kept when a group absorbs
  a token that passed the test of the loop. *)

Section GroupInduction.
Variable P : list (segment time) -> Prop.
Hypothesis P_seed : forall seg, has_text seg = true -> P [seg].
Hypothesis P_absorb : forall g seg,
  g <> [] -> P g -> has_text seg = true ->
  absorbable (accumulate g) (strip (seg_text seg)) seg = true ->
  P (g ++ [seg]).

Let group_inv (ts : traced_state time) : Prop :=
  Forall P (sealed_groups ts)
  /\ (is_current_segment_empty (loop_of ts) = false -> P (open_group ts)).

Lemma group_inv_step ts seg :
  traced_inv ts -> group_inv ts -> group_inv (tstep ts seg).
Proof.
  intros [_ Ho] [Gs Go]. step_cases ts seg; [| | |split; assumption].
  - split; simpl; [exact Gs | intros _; now apply P_seed].
  - destruct Ho as [Hne Hc]. split; simpl; [exact Gs | intros _].
    apply P_absorb; auto. now rewrite <- Hc.
  - split; simpl; [|intros _; now apply P_seed].
    apply Forall_app. split; [exact Gs | constructor; auto].
Qed.

Lemma group_inv_fold segs ts :
  traced_inv ts -> group_inv ts -> group_inv (fold_left tstep segs ts).
Proof.
  revert ts. induction segs as [|seg segs IH]; intros ts I G; simpl;
    [exact G|].
  apply IH; [apply traced_inv_step, I | apply group_inv_step; assumption].
Qed.

Lemma groups_ind segs :
  Forall P (merger_groups segs max_text_len max_segment_interval).
Proof.
  destruct segs as [|s0 segs]; [constructor|].
  unfold merger_groups.
  assert (G0 : group_inv traced_initial)
    by (split; [constructor | discriminate]).
  pose proof (group_inv_fold (s0 :: segs) _ traced_inv_initial G0) as [Gs Go].
  fold (traced_loop max_text_len max_segment_interval (s0 :: segs)) in Gs, Go.
  set (ts := traced_loop max_text_len max_segment_interval (s0 :: segs)) in *.
  cbv zeta. destruct (is_current_segment_empty (loop_of ts)); [exact Gs|].
  apply Forall_app. split; [exact Gs | constructor; auto].
Qed.

End GroupInduction.

Lemma merger_groups_nonempty segs :
  Forall (fun g => g <> [])
         (merger_groups segs max_text_len max_segment_interval).
Proof.
  apply groups_ind.
  - discriminate.
  - intros g seg _ _ _ _ K. apply app_eq_nil in K. destruct K; discriminate.
Qed.

(** *** Tokens without text *)

Lemma fold_skips_blank segs st :
  fold_left step segs st = fold_left step (filter has_text segs) st.
Proof.
  revert st. induction segs as [|seg segs IH]; intros st; simpl;
    [reflexivity|].
  destruct (has_text seg) eqn:E; simpl; [apply IH|].
  rewrite (step_skip _ _ E). apply IH.
Qed.

Lemma filter_all (A : Type) (f : A -> bool) (l : list A) :
  (forall x, In x l -> f x = true) -> filter f l = l.
Proof.
  induction l as [|x l IH]; intros Hf; simpl; [reflexivity|].
  rewrite (Hf x (or_introl eq_refl)). f_equal. apply IH.
  intros y Hy. apply Hf. now right.
Qed.

Lemma list_sum_lengths (A : Type) (ls : list (list A)) :
  list_sum (map (@List.length A) ls) = List.length (List.concat ls).
Proof.
  induction ls as [|l ls IH]; simpl; [reflexivity|].
  now rewrite List.length_app, IH.
Qed.


(** *** Totality *)

(** When every token has text, the groups put end to end are the input. *)
Lemma merger_groups_partition (segments : list (segment time)) :
  (forall seg, In seg segments -> strip (seg_text seg) <> "") ->
  List.concat (merger_groups segments max_text_len max_segment_interval)
  = segments.
Proof.
  intros Htext. rewrite merger_groups_concat. apply filter_all.
  intros seg Hin. apply has_text_true. now apply Htext.
Qed.


(** C10. Tokens whose text is empty or blank after trimming are skipped:
  the result is the result on the tokens with text, and an iteration on
  such a token leaves the loop state (output, open cue, flag) as it is. *)
Theorem merger_skips_blank_tokens :
  (forall segments,
     sentence_segments_merger segments max_text_len max_segment_interval
     = sentence_segments_merger (filter has_text segments)
         max_text_len max_segment_interval)
  /\ (forall st seg,
        strip (seg_text seg) = "" ->
        merger_step max_text_len max_segment_interval st seg = st).
Proof.
  split.
  - intros segments. unfold sentence_segments_merger, merger_loop.
    rewrite (fold_skips_blank segments).
    destruct segments as [|s0 segs]; [reflexivity|].
    destruct (filter has_text (s0 :: segs)); reflexivity.
  - intros st seg E. apply step_skip. now apply has_text_false.
Qed.


(** *** The ends of the accumulator *)

Lemma accumulate_end (g : list (segment time)) d :
  g <> [] -> seg_end (accumulate g) = seg_end (last g d).
Proof.
  intros Hne. destruct (exists_last Hne) as [g' [s ->]].
  rewrite last_last. destruct g' as [|t g']; [reflexivity|].
  now rewrite accumulate_snoc.
Qed.

Lemma accumulate_start (g : list (segment time)) d :
  g <> [] -> seg_start (accumulate g) = seg_start (hd d g).
Proof.
  induction g as [|s g IH] using rev_ind; [congruence|]. intros _.
  destruct g as [|t g]; [reflexivity|].
  rewrite accumulate_snoc by discriminate. simpl.
  apply (IH ltac:(discriminate)).
Qed.

Lemma accumulate_single (t : segment time) : accumulate [t] = seed t.
Proof. reflexivity. Qed.

Lemma cue_of_single (t : segment time) : cue_of_group [t] = seed t.
Proof.
  unfold cue_of_group, seal, set_text, seed. simpl. now rewrite strip_idem.
Qed.

Lemma Sorted_snoc (A : Type) (R : A -> A -> Prop) (l : list A) (x d : A) :
  Sorted R l -> (l <> [] -> R (last l d) x) -> Sorted R (l ++ [x]).
Proof.
  induction l as [|a l IH]; intros S L; simpl.
  - repeat constructor.
  - apply Sorted_inv in S. destruct S as [S Hd]. constructor.
    + apply IH; [exact S|]. intros Hne. destruct l as [|b l]; [congruence|].
      apply L. discriminate.
    + destruct l as [|b l]; simpl.
      * constructor. apply L. discriminate.
      * constructor. now apply HdRel_inv in Hd.
Qed.

Lemma snoc_neq (A : Type) (l : list A) (x : A) : l ++ [x] <> l.
Proof.
  intros K. apply (f_equal (@List.length A)) in K.
  rewrite List.length_app in K. simpl in K. lia.
Qed.

(** *** The rule of absorption *)

Lemma can_absorb_spec cur segment_text seg :
  absorbable cur segment_text seg = true
  <-> tlt (tsub (seg_start seg) (seg_end cur)) max_segment_interval = true
      /\ (Z.of_nat (String.length (seg_text cur ++ " " ++ segment_text))
          < max_text_len)%Z.
Proof.
  unfold can_absorb. rewrite andb_true_iff, Z.ltb_lt. reflexivity.
Qed.

Lemma gap_sorted_groups segments :
  Forall (Sorted (gap_ok max_segment_interval))
         (merger_groups segments max_text_len max_segment_interval).
Proof.
  apply groups_ind.
  - intros seg _. repeat constructor.
  - intros g seg Hne S _ A. apply can_absorb_spec in A. destruct A as [A _].
    apply Sorted_snoc with (d := seg); [exact S|]. intros _.
    unfold gap_ok. now rewrite <- (accumulate_end g seg Hne).
Qed.



(** *** Length of the cues *)

Let short_or_single (g : list (segment time)) : Prop :=
  ((Z.of_nat (String.length (seg_text (accumulate g))) < max_text_len)%Z
   \/ List.length g = 1)
  /\ forall t, In t g ->
       (max_text_len <= Z.of_nat (String.length (strip (seg_text t))))%Z ->
       g = [t].

Lemma short_or_single_groups segments :
  Forall short_or_single
         (merger_groups segments max_text_len max_segment_interval).
Proof.
  apply groups_ind.
  - intros seg _. split; [now right|].
    intros t [<-|[]] _. reflexivity.
  - intros g seg Hne [_ Hbig] _ A. apply can_absorb_spec in A.
    destruct A as [_ A]. rewrite !string_length_app in A. split.
    + left. rewrite accumulate_snoc by exact Hne.
      unfold absorb. cbn [seg_text].
      pose proof (strip_length
        (seg_text (accumulate g) ++ " " ++ strip (seg_text seg))) as L.
      rewrite !string_length_app in L. lia.
    + intros t Hin Ht. exfalso. apply in_app_or in Hin.
      destruct Hin as [Hin|[<-|[]]]; [|lia].
      rewrite (Hbig t Hin Ht) in A. simpl in A. lia.
Qed.

(** C3. Every output cue is shorter than [max_text_len] or is made of
  exactly one token; a token whose own text reaches [max_text_len] is alone
  in its cue, which carries its whole text: it is never split. *)
Theorem merger_length_property (segments : list (segment time)) :
  let groups := merger_groups segments max_text_len max_segment_interval in
  sentence_segments_merger segments max_text_len max_segment_interval
  = map cue_of_group groups
  /\ Forall
       (fun g =>
          ((Z.of_nat (String.length (seg_text (cue_of_group g)))
            < max_text_len)%Z
           \/ List.length g = 1)
          /\ forall t, In t g ->
               (max_text_len
                <= Z.of_nat (String.length (strip (seg_text t))))%Z ->
               g = [t] /\ cue_of_group g = seed t)
       groups.
Proof.
  intros groups. split; [apply merger_by_groups|].
  eapply Forall_impl; [|apply short_or_single_groups].
  intros g [Hlen Hbig]. split.
  - destruct Hlen as [Hlen|Hone]; [left | now right].
    unfold cue_of_group, seal. simpl.
    pose proof (strip_length (seg_text (accumulate g))). lia.
  - intros t Hin Ht. rewrite (Hbig t Hin Ht). split; [reflexivity|].
    apply cue_of_single.
Qed.

(** *** Order and shape of the cues *)

Lemma cue_text_groups segments :
  Forall (fun g => all_space (seg_text (accumulate g)) = false)
         (merger_groups segments max_text_len max_segment_interval).
Proof.
  apply groups_ind.
  - intros seg E. apply has_text_true in E. simpl.
    now apply strip_not_all_space.
  - intros g seg Hne _ E _. apply has_text_true in E.
    rewrite accumulate_snoc by exact Hne. simpl.
    apply strip_not_all_space, strip_join_nonempty.
    now apply strip_not_all_space.
Qed.

Section Ordered.
Variable tle : time -> time -> Prop.
Hypothesis tle_trans : forall a b c, tle a b -> tle b c -> tle a c.

Let by_start (a b : segment time) : Prop := tle (seg_start a) (seg_start b).

Lemma by_start_trans : Relations_1.Transitive by_start.
Proof. intros a b c. unfold by_start. apply tle_trans. Qed.

Lemma StronglySorted_app_l (A : Type) (R : A -> A -> Prop) (l1 l2 : list A) :
  StronglySorted R (l1 ++ l2) -> StronglySorted R l1.
Proof.
  induction l1 as [|a l1 IH]; simpl; intros S; [constructor|].
  apply StronglySorted_inv in S. destruct S as [S F].
  constructor; [now apply IH|]. apply Forall_app in F. tauto.
Qed.

Lemma StronglySorted_app_r (A : Type) (R : A -> A -> Prop) (l1 l2 : list A) :
  StronglySorted R (l1 ++ l2) -> StronglySorted R l2.
Proof.
  induction l1 as [|a l1 IH]; simpl; intros S; [exact S|].
  apply StronglySorted_inv in S. now apply IH.
Qed.

(** In a sorted concatenation, the heads of the groups are sorted. *)
Lemma sorted_heads (d : segment time) (gs : list (list (segment time))) :
  StronglySorted by_start (List.concat gs) ->
  Forall (fun g => g <> []) gs ->
  StronglySorted by_start (map (hd d) gs).
Proof.
  induction gs as [|g gs IH]; simpl; intros S N; [constructor|].
  apply Forall_cons_iff in N. destruct N as [Ng N].
  destruct g as [|x g]; [congruence|]. simpl in *.
  apply StronglySorted_inv in S. destruct S as [S F].
  apply StronglySorted_app_r in S. apply Forall_app in F.
  destruct F as [_ F]. constructor; [now apply IH|].
  apply Forall_forall. intros y Hy. apply in_map_iff in Hy.
  destruct Hy as [g' [<- Hg']].
  rewrite Forall_forall in F, N. specialize (N g' Hg').
  destruct g' as [|y g']; [congruence|]. simpl.
  apply F. apply in_concat. exists (y :: g'). split; [exact Hg'|now left].
Qed.

Lemma sorted_group (gs : list (list (segment time))) g :
  StronglySorted by_start (List.concat gs) -> In g gs ->
  StronglySorted by_start g.
Proof.
  induction gs as [|g0 gs IH]; simpl; intros S Hin; [destruct Hin|].
  destruct Hin as [->|Hin].
  - now apply StronglySorted_app_l in S.
  - apply IH; [|exact Hin]. now apply StronglySorted_app_r in S.
Qed.

(** The first token of a sorted group starts before its last one ends. *)
Lemma group_start_end (g : list (segment time)) d :
  g <> [] -> StronglySorted by_start g ->
  (forall t, In t g -> tle (seg_start t) (seg_end t)) ->
  tle (seg_start (hd d g)) (seg_end (last g d)).
Proof.
  destruct g as [|x g]; [congruence|]. intros _ S T.
  destruct g as [|y g]; [apply T; now left|].
  apply StronglySorted_inv in S. destruct S as [_ F].
  rewrite Forall_forall in F.
  assert (Hl : In (last (x :: y :: g) d) (y :: g)).
  { change (last (x :: y :: g) d) with (last (y :: g) d).
    destruct (@exists_last _ (y :: g) ltac:(discriminate)) as [l' [z E]].
    rewrite E, last_last. apply in_or_app. right. now left. }
  apply tle_trans with (b := seg_start (last (x :: y :: g) d)).
  - apply (F _ Hl).
  - apply T. now right.
Qed.

(** C5. Under the preconditions on the input (every token has text after
  trimming, starts no later than it ends, and the tokens come in
  non-decreasing start order), every cue starts no later than it ends, has
  a non-empty text, and the cues come in non-decreasing start order. *)
Theorem merger_cue_invariants (segments : list (segment time)) :
  (forall seg, In seg segments -> strip (seg_text seg) <> "") ->
  (forall seg, In seg segments -> tle (seg_start seg) (seg_end seg)) ->
  Sorted (fun a b => tle (seg_start a) (seg_start b)) segments ->
  let out :=
    sentence_segments_merger segments max_text_len max_segment_interval in
  Forall (fun cue => tle (seg_start cue) (seg_end cue) /\ seg_text cue <> "")
         out
  /\ Sorted (fun a b => tle (seg_start a) (seg_start b)) out.
Proof.
  intros Htext Hle Hsorted out.
  pose proof (merger_by_groups segments) as Hout. fold out in Hout.
  pose proof (merger_groups_partition segments Htext) as Hcat.
  pose proof (merger_groups_nonempty segments) as Hne.
  set (groups := merger_groups segments max_text_len max_segment_interval)
    in *.
  assert (SS : StronglySorted by_start (List.concat groups)).
  { rewrite Hcat. apply Sorted_StronglySorted;
      [apply by_start_trans | exact Hsorted]. }
  split.
  - rewrite Hout. apply Forall_forall. intros cue Hin.
    apply in_map_iff in Hin. destruct Hin as [g [<- Hg]].
    rewrite Forall_forall in Hne. specialize (Hne g Hg). split.
    + unfold cue_of_group, seal. simpl.
      rewrite (accumulate_start g current_segment_template Hne).
      rewrite (accumulate_end g current_segment_template Hne).
      apply group_start_end; [exact Hne | now apply (sorted_group groups)|].
      intros t Ht. apply Hle. rewrite <- Hcat. apply in_concat. eauto.
    + pose proof (cue_text_groups segments) as Ct.
      rewrite Forall_forall in Ct. specialize (Ct g Hg).
      unfold cue_of_group, seal. simpl. now apply not_all_space_strip.
  - apply StronglySorted_Sorted.
    pose proof (sorted_heads current_segment_template groups SS Hne) as Sh.
    rewrite Hout.
    assert (M : forall gs : list (list (segment time)),
              Forall (fun g => g <> []) gs ->
              StronglySorted by_start
                (map (hd current_segment_template) gs) ->
              StronglySorted by_start (map cue_of_group gs)).
    { induction gs as [|g gs IH]; simpl; intros N S; [constructor|].
      apply Forall_cons_iff in N. destruct N as [Ng N].
      apply StronglySorted_inv in S. destruct S as [S F].
      constructor; [now apply IH|].
      rewrite Forall_forall in *. intros c Hc. apply in_map_iff in Hc.
      destruct Hc as [g' [<- Hg']]. unfold by_start, cue_of_group, seal.
      simpl.
      rewrite (accumulate_start g current_segment_template Ng).
      rewrite (accumulate_start g' current_segment_template (N g' Hg')).
      apply (F (hd current_segment_template g')).
      apply in_map_iff. eauto. }
    apply (M groups Hne Sh).
Qed.

End Ordered.


End WithTime.
End MergerFacts.

(* ===================================================================== *)
(** ** The merger on binary64 time stamps *)
(* ===================================================================== *)

Module MergerOnFloats.
Import PyStr Merger MergerFacts.
Local Open Scope list_scope.

Lemma float_ltb_irrefl (x : float) : PrimFloat.ltb x x = false.
Proof.
  rewrite ltb_spec. unfold SFltb, SFcompare.
  destruct (Prim2SF x) as [s|s| |s m e]; try reflexivity.
  - destruct s; reflexivity.
  - destruct s; rewrite Z.compare_refl, Pos.compare_cont_refl; reflexivity.
Qed.

Lemma SFleb_trans (a b c : spec_float) :
  SFleb a b = true -> SFleb b c = true -> SFleb a c = true.
Proof.
  unfold SFleb, SFcompare.
  destruct a as [sa|sa| |sa ma ea], b as [sb|sb| |sb mb eb],
           c as [sc|sc| |sc mc ec];
    try destruct sa; try destruct sb; try destruct sc;
    try discriminate; try reflexivity; intros H1 H2;
    repeat match goal with
    | K : context [Z.compare ?x ?y] |- _ =>
        destruct (Z.compare_spec x y); try discriminate
    | |- context [Z.compare ?x ?y] =>
        destruct (Z.compare_spec x y); try lia
    end; subst;
    change (Pos.compare_cont Eq) with Pos.compare in *;
    repeat match goal with
    | K : context [Pos.compare ?x ?y] |- _ =>
        destruct (Pos.compare_spec x y); try discriminate
    | |- context [Pos.compare ?x ?y] =>
        destruct (Pos.compare_spec x y); try lia
    end; subst; simpl in *; try reflexivity; try discriminate; try lia.
Qed.

(** [<=] on floats is transitive (a NaN is related to nothing). *)
Lemma float_le_trans (a b c : float) :
  float_le a b -> float_le b c -> float_le a c.
Proof. unfold float_le. rewrite !leb_spec. apply SFleb_trans. Qed.

Lemma scenario_tokens_have_text :
  forall seg, In seg scenario_tokens -> strip (seg_text seg) <> "".
Proof.
  intros seg [<-|[<-|[<-|[]]]]; vm_compute; discriminate.
Defined.

(** C4. The documented scenario: with [max_text_len = 80] and
  [max_gap = 2.0], the three tokens give the two cues [a b] from 0.0 to 0.5
  and [c] from 3.0 to 3.2; the gap before the third token is 2.5, which is
  not below 2.0. *)
Theorem merger_concrete_scenario :
  sentence_segments_merger scenario_tokens 80%Z 2.0%float
  = [ mk_segment "a b" 0.0%float 0.5%float;
      mk_segment "c" 3.0%float 3.2%float ]
  /\ PrimFloat.sub 3.0 0.5 = 2.5%float
  /\ PrimFloat.ltb 2.5 2.0 = false.
Proof. vm_compute. repeat split. Qed.



Lemma scenario_tokens_ordered :
  Sorted (fun a b => float_le (seg_start a) (seg_start b)) scenario_tokens.
Proof. repeat constructor. Defined.

Lemma scenario_tokens_positive :
  forall seg, In seg scenario_tokens -> float_le (seg_start seg) (seg_end seg).
Proof. intros seg [<-|[<-|[<-|[]]]]; vm_compute; reflexivity. Defined.

Lemma merger_cue_invariants_witness :
  (forall a b c, float_le a b -> float_le b c -> float_le a c)
  /\ Sorted (fun a b => float_le (seg_start a) (seg_start b))
       (sentence_segments_merger scenario_tokens 80%Z 2.0%float).
Proof.
  split; [exact float_le_trans|].
  exact (proj2 (@merger_cue_invariants float float_time 80%Z 2.0%float
                  float_le float_le_trans
                  scenario_tokens scenario_tokens_have_text
                  scenario_tokens_positive scenario_tokens_ordered)).
Defined.

Lemma merger_length_property_witness :
  In [long_token] (merger_groups long_then_short 3%Z 2.0%float)
  /\ (3 <= Z.of_nat (String.length (strip (seg_text long_token))))%Z
  /\ cue_of_group [long_token] = seed long_token.
Proof.
  assert (G : In [long_token] (merger_groups long_then_short 3%Z 2.0%float))
    by (vm_compute; left; reflexivity).
  assert (L : (3 <= Z.of_nat (String.length (strip (seg_text long_token))))%Z)
    by (vm_compute; discriminate).
  split; [exact G | split; [exact L|]].
  destruct (@merger_length_property float float_time 3%Z 2.0%float
              long_then_short) as [_ F].
  rewrite Forall_forall in F.
  destruct (F [long_token] G) as [_ Big].
  exact (proj2 (Big long_token (or_introl eq_refl) L)).
Defined.

Lemma merger_skips_blank_tokens_witness :
  strip (seg_text blank_token) = ""
  /\ merger_step 80%Z 2.0%float boundary_state blank_token = boundary_state.
Proof.
  split; [reflexivity|].
  exact (proj2 (@merger_skips_blank_tokens float float_time 80%Z 2.0%float)
           boundary_state blank_token eq_refl).
Defined.

End MergerOnFloats.

(* ===================================================================== *)
(** ** Facts about the regex scan *)
(* ===================================================================== *)

Module ScanFacts.
Import PyStr PyStrFacts Phonetic.

Lemma to_lower_is_word (c : ascii) : is_word (to_lower c) = is_word c.
Proof. destruct c as [[] [] [] [] [] [] [] []]; reflexivity. Qed.

Lemma literal_ignore_word (p c : ascii) :
  literal_ignore p c = true -> is_word c = is_word p.
Proof.
  unfold literal_ignore. intros E. apply Ascii.eqb_eq in E.
  rewrite <- (to_lower_is_word c), E. apply to_lower_is_word.
Qed.

Lemma lower_length (s : string) : String.length (lower s) = String.length s.
Proof. induction s as [|c s IH]; simpl; [reflexivity | now rewrite IH]. Qed.

(** What a literal matches: a prefix equal to it, letter case apart. *)
Lemma literal_match_sound (k : string) : forall s m r,
  match_literal_ignore k s = Some (m, r) ->
  s = m ++ r /\ lower m = lower k /\ all_word m = all_word k.
Proof.
  induction k as [|p k IH]; intros s m r E; simpl in E.
  - injection E as <- <-. repeat split.
  - destruct s as [|c s]; [discriminate|].
    destruct (literal_ignore p c) eqn:L; [|discriminate].
    destruct (match_literal_ignore k s) as [[m1 r1]|] eqn:E1; [|discriminate].
    injection E as <- <-. destruct (IH _ _ _ E1) as (-> & Hl & Hw).
    simpl. rewrite Hl, Hw, (literal_ignore_word _ _ L).
    unfold literal_ignore in L. apply Ascii.eqb_eq in L. rewrite L.
    repeat split.
Qed.

Lemma literal_match_complete (k : string) : forall m r,
  lower m = lower k -> match_literal_ignore k (m ++ r) = Some (m, r).
Proof.
  induction k as [|p k IH]; intros [|c m] r E; simpl in *;
    try discriminate; [reflexivity|].
  injection E as E1 E2. unfold literal_ignore.
  rewrite E1, Ascii.eqb_refl. now rewrite (IH _ _ E2).
Qed.

Lemma thatp_after_word (m : string) : forall thatp,
  m <> "" -> all_word m = true -> thatp_after thatp m = true.
Proof.
  induction m as [|c m IH]; intros thatp N W; [congruence|].
  simpl in *. apply andb_true_iff in W. destruct W as [Wc W].
  destruct m as [|c' m]; [exact Wc|]. apply IH; [discriminate | exact W].
Qed.

Lemma at_boundary_after_word (rest : string) :
  at_boundary true rest = word_ends_here rest.
Proof. destruct rest; reflexivity. Qed.

(** A word followed by the end of a word is found in one way only. *)
Lemma word_prefix_unique (m1 : string) : forall m2 r1 r2,
  all_word m1 = true -> all_word m2 = true ->
  word_ends_here r1 = true -> word_ends_here r2 = true ->
  m1 ++ r1 = m2 ++ r2 -> m1 = m2 /\ r1 = r2.
Proof.
  induction m1 as [|c m1 IH]; intros [|d m2] r1 r2 W1 W2 E1 E2 E;
    simpl in *.
  - now split.
  - subst r1. simpl in E1. apply andb_true_iff in W2.
    destruct W2 as [W2 _]. rewrite W2 in E1. discriminate.
  - subst r2. simpl in E2. apply andb_true_iff in W1.
    destruct W1 as [W1 _]. rewrite W1 in E2. discriminate.
  - injection E as <- E. apply andb_true_iff in W1, W2.
    destruct (IH m2 r1 r2) as [-> ->]; tauto.
Qed.

(** Every text starts with a maximal run of word characters. *)
Lemma span_word (s : string) :
  exists w rest,
    s = w ++ rest /\ all_word w = true /\ word_ends_here rest = true.
Proof.
  induction s as [|c s (w & rest & -> & W & E)].
  - exists "", "". repeat split.
  - destruct (is_word c) eqn:C.
    + exists (String c w), rest. simpl. rewrite C, W. repeat split. exact E.
    + exists "", (String c (w ++ rest)). simpl. rewrite C. repeat split.
Qed.

(** No alternative starts at a character that is not a word character. *)
Lemma alternatives_nonword words thatp d s :
  plain_words words -> is_word d = false ->
  match_alternatives words thatp (String d s) = None.
Proof.
  intros P D. induction P as [|k ks [Kne Kw] _ IH]; simpl; [reflexivity|].
  destruct k as [|p k]; [congruence|]. simpl in *.
  destruct (literal_ignore p d) eqn:L; [|exact IH].
  apply literal_ignore_word in L. rewrite D in L. rewrite <- L in Kw.
  discriminate.
Qed.

(** At the start of a word, an alternative matches exactly when the whole
  word is that alternative, letter case apart. *)
Lemma alternatives_word words thatp w rest :
  plain_words words ->
  all_word w = true -> word_ends_here rest = true ->
  match_alternatives words thatp (w ++ rest)
  = if is_key_ci words w then Some (w, rest) else None.
Proof.
  intros P W E. unfold is_key_ci.
  induction P as [|k ks [Kne Kw] _ IH]; simpl; [reflexivity|].
  destruct (match_literal_ignore k (w ++ rest)) as [[m r]|] eqn:M.
  - destruct (literal_match_sound _ _ _ _ M) as (S & L & Wm).
    rewrite Kw in Wm.
    assert (Mne : m <> "").
    { intros ->. destruct k; [congruence | discriminate]. }
    rewrite (thatp_after_word m thatp Mne Wm), at_boundary_after_word.
    destruct (word_ends_here r) eqn:R.
    + destruct (word_prefix_unique w m rest r W Wm E R S) as [<- <-].
      rewrite L, String.eqb_refl. reflexivity.
    + destruct (String.eqb (lower k) (lower w)) eqn:K; [|exact IH].
      apply String.eqb_eq in K. symmetry in K.
      rewrite (literal_match_complete k w rest K) in M.
      injection M as <- <-. congruence.
  - destruct (String.eqb (lower k) (lower w)) eqn:K; [|exact IH].
    apply String.eqb_eq in K. symmetry in K.
    rewrite (literal_match_complete k w rest K) in M. discriminate.
Qed.

(** *** The scan, position by position *)

Section Scan.
Variable words : list string.
Variable repl : string -> option string.
Hypothesis words_plain : plain_words words.

Local Abbreviation scan := (re_sub words repl).

Lemma re_sub_nil thatp : scan thatp "" = Some "".
Proof. now rewrite re_sub_equation_1. Qed.

Lemma re_sub_cons thatp c s' :
  scan thatp (String c s')
  = match pattern_match words thatp (String c s') with
    | Some (String a m, rest) =>
        match repl (String a m) with
        | None => None
        | Some r =>
            then_text (append r) (scan (thatp_after thatp (String a m)) rest)
        end
    | _ => then_text (String c) (scan (is_word c) s')
    end.
Proof.
  rewrite re_sub_equation_2. unfold inspect.
  assert (U : forall o (e : pattern_match words thatp (String c s') = o),
    re_sub_unfold_clause_2 words repl thatp c s' (exist _ o e)
    = match o with
      | Some (String a m, rest) =>
          match repl (String a m) with
          | None => None
          | Some r =>
              then_text (append r)
                (scan (thatp_after thatp (String a m)) rest)
          end
      | _ => then_text (String c) (scan (is_word c) s')
      end).
  { intros o e. destruct o as [[[|a m] rest]|]; simp re_sub;
      reflexivity. }
  apply U.
Qed.

(** A character that is not a word character is copied. *)
Lemma re_sub_nonword thatp d s :
  is_word d = false ->
  scan thatp (String d s) = then_text (String d) (scan false s).
Proof.
  intros D. rewrite re_sub_cons. unfold pattern_match.
  rewrite (alternatives_nonword words thatp d s words_plain D), D.
  destruct (at_boundary thatp (String d s)); reflexivity.
Qed.

(** Inside a word, its characters are copied. *)
Lemma re_sub_in_word w : forall rest,
  all_word w = true ->
  scan true (w ++ rest) = then_text (append w) (scan true rest).
Proof.
  induction w as [|c w IH]; intros rest W; simpl.
  - destruct (scan true rest); reflexivity.
  - apply andb_true_iff in W. destruct W as [C W].
    rewrite re_sub_cons. unfold pattern_match, at_boundary. simpl.
    rewrite C. simpl. rewrite (IH rest W).
    destruct (scan true rest); reflexivity.
Qed.

(** A whole word is replaced if it is an alternative, letter case apart,
  and copied otherwise. *)
Lemma re_sub_word w rest :
  w <> "" -> all_word w = true -> word_ends_here rest = true ->
  scan false (w ++ rest)
  = if is_key_ci words w then
      match repl w with
      | None => None
      | Some r => then_text (append r) (scan true rest)
      end
    else then_text (append w) (scan true rest).
Proof.
  intros N W E. destruct w as [|c w]; [congruence|].
  change (String c w ++ rest) with (String c (w ++ rest)).
  rewrite re_sub_cons.
  change (String c (w ++ rest)) with (String c w ++ rest).
  unfold pattern_match.
  replace (at_boundary false (String c w ++ rest)) with true
    by (simpl in *; apply andb_true_iff in W; destruct W as [-> _];
        reflexivity).
  rewrite (alternatives_word words false (String c w) rest words_plain W E).
  destruct (is_key_ci words (String c w)).
  - rewrite (thatp_after_word (String c w) false N W). reflexivity.
  - simpl in W. apply andb_true_iff in W. destruct W as [C W].
    rewrite C, (re_sub_in_word w rest W).
    destruct (scan true rest); reflexivity.
Qed.

(** After a word, the scan goes on with the character that ends it. *)
Lemma re_sub_word_end rest t :
  word_ends_here rest = true -> scan true rest = Some t ->
  word_ends_here t = true.
Proof.
  intros E S. destruct rest as [|d rest].
  - rewrite re_sub_nil in S. now injection S as <-.
  - simpl in E. apply negb_true_iff in E.
    rewrite (re_sub_nonword true d rest E) in S.
    destruct (scan false rest); [|discriminate].
    injection S as <-. simpl. now rewrite E.
Qed.

End Scan.


End ScanFacts.

(* ===================================================================== *)
(** ** Facts about the phonetic translator *)
(* ===================================================================== *)

Module PhoneticFacts.
Import PyStr PyStrFacts Phonetic ScanFacts.

Local Abbreviation words := (keys phonetic_to_letter).
Local Abbreviation scan := (re_sub words replace_match_and_bold).

(** *** The table *)

Lemma keys_plain : plain_words words.
Proof.
  unfold plain_words. simpl.
  repeat (constructor; [split; [discriminate | reflexivity]|]).
  constructor.
Qed.

Lemma keys_long : Forall (fun k => 4 <= String.length k) words.
Proof. simpl. repeat (constructor; [simpl; lia|]). constructor. Qed.

(** A word of fewer than four characters is no phonetic word. *)
Lemma short_not_key (w : string) :
  String.length w < 4 -> is_key_ci words w = false.
Proof.
  intros L. unfold is_key_ci.
  destruct (existsb _ words) eqn:X; [|reflexivity].
  apply existsb_exists in X. destruct X as (k & Hin & E).
  apply String.eqb_eq in E. apply (f_equal String.length) in E.
  rewrite !lower_length in E.
  pose proof keys_long as K. rewrite Forall_forall in K.
  specialize (K k Hin). lia.
Qed.

(** What the callback returns on a phonetic word, whatever its case. *)
Lemma replace_matched (w : string) :
  is_key_ci words w = true ->
  exists X,
    dict_get phonetic_to_letter (lower w) = Some (String X "")
    /\ between 65 90 X = true
    /\ replace_match_and_bold w
       = Some (if String.eqb (lower w) "november" then bold "N"
               else String X "").
Proof.
  intros K. unfold is_key_ci in K. apply existsb_exists in K.
  destruct K as (k & Hin & E). apply String.eqb_eq in E.
  unfold replace_match_and_bold. rewrite <- E. clear E. simpl in Hin.
  repeat (destruct Hin as [<-|Hin];
          [eexists; split; [reflexivity | split; reflexivity]|]).
  destruct Hin.
Qed.

(** What the pattern matches is a phonetic word. *)
Lemma alternatives_sound ws thatp s m rest :
  match_alternatives ws thatp s = Some (m, rest) ->
  s = m ++ rest /\ is_key_ci ws m = true.
Proof.
  unfold is_key_ci.
  induction ws as [|k ws IH]; simpl; intros E; [discriminate|].
  destruct (match_literal_ignore k s) as [[m1 r1]|] eqn:M.
  - destruct (at_boundary _ r1).
    + injection E as <- <-.
      destruct (literal_match_sound _ _ _ _ M) as (S & L & _).
      rewrite L, String.eqb_refl. split; [exact S | reflexivity].
    + destruct (IH E) as [S K]. rewrite K, orb_true_r. now split.
  - destruct (IH E) as [S K]. rewrite K, orb_true_r. now split.
Qed.

Lemma key_plain (m : string) :
  is_key_ci words m = true -> m <> "" /\ all_word m = true.
Proof.
  intros K. unfold is_key_ci in K. apply existsb_exists in K.
  destruct K as (k & Hin & E). apply String.eqb_eq in E.
  pose proof keys_plain as P. unfold plain_words in P.
  rewrite Forall_forall in P. destruct (P k Hin) as [Kne Kw].
  split.
  - intros ->. destruct k; [congruence | discriminate].
  - clear - E Kw. revert k E Kw.
    induction m as [|c m IH]; intros [|p k] E Kw; simpl in *;
      try discriminate; [reflexivity|].
    injection E as E1 E2. apply andb_true_iff in Kw. destruct Kw as [Kp Kw].
    rewrite (IH k E2 Kw), andb_true_r.
    rewrite <- (to_lower_is_word c), <- E1, to_lower_is_word. exact Kp.
Qed.

(** *** Translating a translated text *)

Lemma scan_word w rest :
  w <> "" -> all_word w = true -> word_ends_here rest = true ->
  scan false (w ++ rest)
  = if is_key_ci words w then
      match replace_match_and_bold w with
      | None => None
      | Some r => then_text (append r) (scan true rest)
      end
    else then_text (append w) (scan true rest).
Proof. apply re_sub_word, keys_plain. Qed.

Lemma scan_nonword thatp d s :
  is_word d = false ->
  scan thatp (String d s) = then_text (String d) (scan false s).
Proof. apply re_sub_nonword, keys_plain. Qed.

Lemma scan_in_word c s :
  is_word c = true ->
  scan true (String c s) = then_text (String c) (scan true s).
Proof.
  intros C. change (String c s) with (String c "" ++ s).
  rewrite (re_sub_in_word words replace_match_and_bold (String c "") s)
    by (simpl; rewrite C; reflexivity).
  destruct (scan true s); reflexivity.
Qed.

(** A short word is copied. *)
Lemma scan_short_word w rest t :
  w <> "" -> all_word w = true -> String.length w < 4 ->
  word_ends_here rest = true -> scan true rest = Some t ->
  scan false (w ++ rest) = Some (w ++ t).
Proof.
  intros N W L E S. rewrite (scan_word w rest N W E).
  now rewrite (short_not_key w L), S.
Qed.

(** The emphasized [N] is left as it is by a second pass. *)
Lemma bold_stable t :
  word_ends_here t = true -> scan true t = Some t ->
  scan false (bold "N" ++ t) = Some (bold "N" ++ t).
Proof.
  intros E S. unfold bold. simpl.
  rewrite scan_nonword by reflexivity.
  rewrite scan_nonword by reflexivity.
  match goal with
  | |- context [scan false (String "1" (String "m" (String "N" ?r)))] =>
      change (String "1" (String "m" (String "N" r))) with ("1mN" ++ r);
      rewrite (scan_word "1mN" r) by (reflexivity || discriminate)
  end.
  rewrite short_not_key by (simpl; lia).
  rewrite scan_nonword by reflexivity.
  rewrite scan_nonword by reflexivity.
  change (String "0" (String "m" t)) with ("0m" ++ t).
  rewrite (scan_short_word "0m" t t) by
    (assumption || reflexivity || discriminate || (simpl; lia)).
  reflexivity.
Qed.

Lemma scan_stable (n : nat) : forall s thatp,
  String.length s <= n ->
  exists t, scan thatp s = Some t /\ scan thatp t = Some t.
Proof.
  induction n as [|n IH]; intros s thatp L.
  - destruct s; [|simpl in L; lia]. exists "".
    rewrite re_sub_nil. now split.
  - destruct s as [|c s]; [exists ""; rewrite re_sub_nil; now split|].
    simpl in L. destruct (is_word c) eqn:C.
    + destruct thatp.
      * destruct (IH s true ltac:(lia)) as (t & H1 & H2).
        exists (String c t).
        rewrite (scan_in_word c s C), (scan_in_word c t C), H1, H2.
        now split.
      * destruct (span_word (String c s)) as (w & rest & Es & W & R).
        assert (N : w <> "").
        { intros ->. simpl in Es. subst rest. simpl in R.
          rewrite C in R. discriminate. }
        assert (Lr : String.length rest <= n).
        { apply (f_equal String.length) in Es.
          rewrite string_length_app in Es. simpl in Es.
          destruct w; [congruence | simpl in Es; lia]. }
        destruct (IH rest true Lr) as (t & H1 & H2).
        pose proof (re_sub_word_end _ _ keys_plain rest t R H1) as Rt.
        rewrite Es, (scan_word w rest N W R).
        destruct (is_key_ci words w) eqn:K.
        -- destruct (replace_matched w K) as (X & _ & Up & ->).
           destruct (String.eqb (lower w) "november").
           ++ exists (bold "N" ++ t). rewrite H1.
              split; [reflexivity | now apply bold_stable].
           ++ exists (String X "" ++ t). rewrite H1.
              split; [reflexivity|].
              apply scan_short_word; auto; try discriminate.
              simpl. rewrite andb_true_r.
              unfold is_word. now rewrite Up, !orb_true_r.
        -- exists (w ++ t). rewrite H1. split; [reflexivity|].
           now rewrite (scan_word w t N W Rt), K, H2.
    + destruct (IH s false ltac:(lia)) as (t & H1 & H2).
      exists (String c t).
      rewrite (scan_nonword thatp c s C), (scan_nonword thatp c t C), H1, H2.
      now split.
Qed.



(** *** Whole words, whatever their case *)

Lemma is_key_dict (d : list (string * string)) (x : string) :
  Forall (fun k => lower k = k) (keys d) ->
  existsb (fun k => String.eqb (lower k) x) (keys d)
  = match dict_get d x with Some _ => true | None => false end.
Proof.
  induction d as [|[k v] d IH]; simpl; intros F; [reflexivity|].
  apply Forall_cons_iff in F. destruct F as [-> F].
  destruct (String.eqb k x); [reflexivity | now apply IH].
Qed.

Lemma keys_lower : Forall (fun k => lower k = k) words.
Proof. simpl. repeat (constructor; [reflexivity|]). constructor. Qed.

Lemma is_key_lookup (w : string) :
  is_key_ci words w
  = match dict_get phonetic_to_letter (lower w) with
    | Some _ => true
    | None => false
    end.
Proof. apply is_key_dict, keys_lower. Qed.






End PhoneticFacts.

(* ===================================================================== *)
(** ** Facts about the subtitle list *)
(* ===================================================================== *)

Module SerializerFacts.
Import PyStr Merger Serializer.
Local Open Scope list_scope.

Section WithTime.
Context {time delta : Type}.
Variable timedelta : time -> option delta.

Lemma srt_list_from_shape (cues : list (segment time)) : forall i subs,
  srt_list_from timedelta i cues = Some subs ->
  map index subs = seq i (List.length cues)
  /\ map content subs = map (fun v => strip (seg_text v)) cues.
Proof.
  induction cues as [|v cues IH]; intros i subs E; simpl in E.
  - injection E as <-. now split.
  - destruct (timedelta (seg_start v)) as [s|]; [|discriminate].
    destruct (timedelta (seg_end v)) as [e|]; [|discriminate].
    destruct (srt_list_from timedelta (S i) cues) as [l|] eqn:R;
      [|discriminate].
    injection E as <-. destruct (IH _ _ R) as [Hi Hc]. simpl.
    now rewrite Hi, Hc.
Qed.

(** The list has one subtitle per cue, in order, numbered from 0 by
  position, with the trimmed text of the cue. *)
Lemma result_srt_list_shape (cues : list (segment time)) subs :
  result_srt_list timedelta cues = Some subs ->
  map index subs = seq 0 (List.length cues)
  /\ map content subs = map (fun v => strip (seg_text v)) cues.
Proof. apply srt_list_from_shape. Qed.

(** Building the list looks neither at the order of [start] and [end] nor
  at the text: it goes through as soon as the two conversions do. *)
Lemma result_srt_list_total (cues : list (segment time)) :
  (forall v, In v cues ->
     timedelta (seg_start v) <> None /\ timedelta (seg_end v) <> None) ->
  exists subs, result_srt_list timedelta cues = Some subs.
Proof.
  unfold result_srt_list. generalize 0.
  induction cues as [|v cues IH]; intros i Ht; simpl.
  - now exists [].
  - destruct (Ht v (or_introl eq_refl)) as [Hs He].
    destruct (timedelta (seg_start v)) as [s|]; [|congruence].
    destruct (timedelta (seg_end v)) as [e|]; [|congruence].
    destruct (IH (S i)) as [l ->]; [intros u Hu; apply Ht; now right|].
    eexists. reflexivity.
Qed.

(** The subtitle list of [main]: when the conversions of the time stamps
  go through, the list is built, whatever the order of [start] and [end]
  and whatever the text; it has one subtitle per cue, in order, numbered
  from 0 by position, with the trimmed text of the cue. *)
Theorem srt_list_by_position (cues : list (segment time)) :
  (forall v, In v cues ->
     timedelta (seg_start v) <> None /\ timedelta (seg_end v) <> None) ->
  exists subs,
    result_srt_list timedelta cues = Some subs
    /\ map index subs = seq 0 (List.length cues)
    /\ map content subs = map (fun v => strip (seg_text v)) cues.
Proof.
  intros Ht. destruct (result_srt_list_total cues Ht) as [subs E].
  exists subs. split; [exact E | now apply result_srt_list_shape].
Qed.


End WithTime.

(** A cue that ends before it starts and a cue without text are both put
  in the list. *)
Lemma srt_list_by_position_witness :
  exists subs,
    result_srt_list (fun x : float => Some x)
      [ mk_segment "late" 2.0%float 1.0%float;
        mk_segment "" 3.0%float 4.0%float ] = Some subs
    /\ map index subs = [0; 1]
    /\ map content subs = ["late"; ""].
Proof.
  apply (srt_list_by_position (fun x : float => Some x)
           [ mk_segment "late" 2.0%float 1.0%float;
             mk_segment "" 3.0%float 4.0%float ]).
  intros v _. split; discriminate.
Defined.


End SerializerFacts.

(* ===================================================================== *)
(** ** More on the cues: their text, their span, their number *)
(* ===================================================================== *)

Module CueShapeFacts.
Import PyStr PyStrFacts Merger MergerFacts CueShape.
Local Open Scope list_scope.

Lemma string_app_assoc (a b c : string) :
  ((a ++ b) ++ c)%string = (a ++ (b ++ c))%string.
Proof. induction a as [|x a IH]; simpl; [reflexivity | now rewrite IH]. Qed.

Lemma string_app_nonempty (a b : string) :
  a <> ""%string -> (a ++ b)%string <> ""%string.
Proof. destruct a; [congruence | discriminate]. Qed.

Lemma rstrip_app_keep (x b : string) :
  rstrip b <> ""%string -> rstrip (x ++ b) = (x ++ rstrip b)%string.
Proof.
  intros N. induction x as [|c x IH]; simpl; [reflexivity|].
  rewrite IH. destruct (x ++ rstrip b)%string eqn:E.
  - destruct x; simpl in E; [congruence | discriminate].
  - simpl. now rewrite andb_false_r.
Qed.

(** A trimmed text is left alone by both halves of [strip]. *)
Lemma trimmed_parts (s : string) :
  strip s = s -> lstrip s = s /\ rstrip s = s.
Proof.
  intros E. assert (L : lstrip s = s).
  { apply lstrip_fixed. rewrite <- E. apply strip_head. }
  split; [exact L|]. unfold strip in E. now rewrite L in E.
Qed.

(** Two trimmed texts joined by a space make a trimmed text. *)
Lemma join_trimmed (a b : string) :
  strip a = a -> a <> ""%string -> strip b = b -> b <> ""%string ->
  strip (a ++ " " ++ b) = (a ++ " " ++ b)%string.
Proof.
  intros Ea Na Eb Nb.
  destruct (trimmed_parts a Ea) as [La _].
  destruct (trimmed_parts b Eb) as [_ Rb].
  unfold strip.
  assert (L : lstrip (a ++ " " ++ b) = (a ++ " " ++ b)%string).
  { apply lstrip_fixed. pose proof (lstrip_head a) as Hd. rewrite La in Hd.
    destruct a; [congruence | exact Hd]. }
  rewrite L, <- string_app_assoc, rstrip_app_keep; rewrite Rb; congruence.
Qed.

Lemma concat_snoc (sep x : string) (l : list string) :
  l <> [] ->
  String.concat sep (l ++ [x]) = (String.concat sep l ++ sep ++ x)%string.
Proof.
  induction l as [|a l IH]; [congruence|]. intros _.
  destruct l as [|b l]; [reflexivity|].
  change (String.concat sep ((a :: b :: l) ++ [x]))
    with (a ++ sep ++ String.concat sep ((b :: l) ++ [x]))%string.
  rewrite IH by discriminate.
  change (String.concat sep (a :: b :: l))
    with (a ++ sep ++ String.concat sep (b :: l))%string.
  now rewrite !string_app_assoc.
Qed.

Section WithTime.
Context {time : Type} `{TimeOps time}.
Variables (max_text_len : Z) (max_segment_interval : time).

Local Abbreviation step := (merger_step max_text_len max_segment_interval).
Local Abbreviation merge segs :=
  (sentence_segments_merger segs max_text_len max_segment_interval).
Local Abbreviation groups_of segs :=
  (merger_groups segs max_text_len max_segment_interval).

(** *** The text of a cue *)

Lemma joined_text_groups (segments : list (segment time)) :
  Forall (fun g => seg_text (accumulate g) = joined_text g
                   /\ strip (joined_text g) = joined_text g
                   /\ joined_text g <> ""%string)
         (groups_of segments).
Proof.
  apply groups_ind.
  - intros seg E. apply has_text_true in E. unfold joined_text. simpl.
    split; [reflexivity | split; [apply strip_idem | exact E]].
  - intros g seg Hne (Ht & Hs & Hn) E _. apply has_text_true in E.
    assert (J : joined_text (g ++ [seg])
                = (joined_text g ++ " " ++ strip (seg_text seg))%string).
    { unfold joined_text. rewrite map_app. simpl. apply concat_snoc.
      destruct g; [congruence | discriminate]. }
    assert (T : strip (joined_text g ++ " " ++ strip (seg_text seg))
                = (joined_text g ++ " " ++ strip (seg_text seg))%string)
      by (apply join_trimmed; auto using strip_idem).
    rewrite accumulate_snoc by exact Hne. unfold absorb. cbn [seg_text].
    rewrite Ht, J, T.
    split; [reflexivity | split; [reflexivity|]].
    now apply string_app_nonempty.
Qed.

(** X2. The text of every cue is the trimmed texts of its tokens, in
  order, joined by single spaces; it has no space at either end. *)
Theorem cue_text_is_joined_tokens (segments : list (segment time)) :
  merge segments = map cue_of_group (groups_of segments)
  /\ Forall (fun g =>
               seg_text (cue_of_group g) = joined_text g
               /\ strip (seg_text (cue_of_group g))
                  = seg_text (cue_of_group g))
            (groups_of segments).
Proof.
  split; [apply merger_by_groups|].
  eapply Forall_impl; [|apply joined_text_groups].
  intros g (Ht & Hs & _). unfold cue_of_group, seal. cbn [set_text seg_text].
  rewrite Ht, Hs. split; [reflexivity | exact Hs].
Qed.

(** X3. Every cue starts when its first token starts and ends when its
  last token ends. *)
Theorem cue_spans_its_tokens (segments : list (segment time)) :
  merge segments = map cue_of_group (groups_of segments)
  /\ Forall (fun g =>
               g <> []
               /\ forall d,
                    seg_start (cue_of_group g) = seg_start (hd d g)
                    /\ seg_end (cue_of_group g) = seg_end (last g d))
            (groups_of segments).
Proof.
  split; [apply merger_by_groups|].
  eapply Forall_impl; [|apply merger_groups_nonempty].
  intros g N. split; [exact N|]. intros d.
  unfold cue_of_group, seal. cbn [set_text seg_start seg_end].
  split; [now apply accumulate_start | now apply accumulate_end].
Qed.

(** *** Sealed cues are final *)

Lemma step_appends st seg :
  exists more, merged_segments (step st seg) = merged_segments st ++ more.
Proof.
  unfold merger_step. destruct (is_empty _); [exists []; now rewrite app_nil_r|].
  destruct (is_current_segment_empty st);
    [exists []; simpl; now rewrite app_nil_r|].
  destruct (can_absorb _ _ _ _ _); simpl;
    [exists []; now rewrite app_nil_r | eexists; reflexivity].
Qed.

Lemma fold_appends l : forall st,
  exists more,
    merged_segments (fold_left step l st) = merged_segments st ++ more.
Proof.
  induction l as [|seg l IH]; intros st; simpl.
  - exists []. now rewrite app_nil_r.
  - destruct (IH (step st seg)) as [m E].
    destruct (step_appends st seg) as [m0 E0].
    exists (m0 ++ m). now rewrite E, E0, app_assoc.
Qed.

Lemma merge_result (segments : list (segment time)) :
  merge segments
  = result_of (merger_loop max_text_len max_segment_interval segments).
Proof. destruct segments; reflexivity. Qed.

Lemma removelast_prefix (A : Type) (l : list A) :
  exists t, l = removelast l ++ t.
Proof.
  destruct l as [|a l]; [now exists []|].
  exists [last (a :: l) a]. apply app_removelast_last. discriminate.
Qed.

(** X4. A cue that has been sealed is never changed again: whatever tokens
  follow, all the cues of the result on a prefix of the input, except the
  last one, which may still grow, stand at the head of the result. *)
Theorem sealed_cues_are_final (l1 l2 : list (segment time)) :
  exists more, merge (l1 ++ l2) = removelast (merge l1) ++ more.
Proof.
  rewrite !merge_result. unfold merger_loop. rewrite fold_left_app.
  set (st1 := fold_left step l1 initial_state).
  destruct (fold_appends l2 st1) as [m E].
  assert (P1 : exists t, merged_segments st1 = removelast (result_of st1) ++ t).
  { unfold result_of. destruct (is_current_segment_empty st1).
    - apply removelast_prefix.
    - rewrite removelast_last. exists []. now rewrite app_nil_r. }
  destruct P1 as [t1 E1]. unfold result_of at 1.
  destruct (is_current_segment_empty (fold_left step l2 st1));
    rewrite E, E1, <- !app_assoc; eexists; reflexivity.
Qed.

(** *** How many cues *)

Lemma length_concat_nonempty (A : Type) (gs : list (list A)) :
  Forall (fun g => g <> []) gs ->
  List.length gs <= List.length (List.concat gs).
Proof.
  induction 1 as [|g gs N _ IH]; simpl; [lia|].
  rewrite List.length_app. destruct g; [congruence | simpl; lia].
Qed.

(** X5. There are at most as many cues as tokens with text, and there is
  no cue exactly when no token has text. *)
Theorem cue_count (segments : list (segment time)) :
  List.length (merge segments) <= List.length (filter has_text segments)
  /\ (merge segments = [] <-> filter has_text segments = []).
Proof.
  rewrite merger_by_groups, length_map.
  pose proof (merger_groups_concat max_text_len max_segment_interval
                segments) as C.
  pose proof (merger_groups_nonempty max_text_len max_segment_interval
                segments) as N.
  pose proof (length_concat_nonempty _ _ N) as L. rewrite C in L.
  split; [exact L|]. split.
  - intros E. apply map_eq_nil in E. rewrite E in C. now rewrite <- C.
  - intros E. rewrite E in L. simpl in L.
    destruct (groups_of segments); [reflexivity | simpl in L; lia].
Qed.

(** *** Limits under which nothing is merged *)

Lemma singletons_of_concat (A : Type) (gs : list (list A)) :
  Forall (fun g => exists t, g = [t]) gs ->
  gs = map (fun t => [t]) (List.concat gs).
Proof.
  induction 1 as [|g gs [t ->] _ IH]; simpl; [reflexivity|]. now f_equal.
Qed.

(** X6. With a length limit of at most 3, or a gap limit that no number is
  below, no token is ever absorbed: every token with text is a cue of its
  own, with its trimmed text and its own times. *)
Theorem nothing_merged (segments : list (segment time)) :
  (max_text_len <= 3)%Z \/ (forall x, tlt x max_segment_interval = false) ->
  merge segments = map seed (filter has_text segments).
Proof.
  intros Lim.
  assert (S : Forall (fun g => exists t, g = [t] /\ has_text t = true)
                     (groups_of segments)).
  { apply groups_ind.
    - intros seg E. now exists seg.
    - intros g seg _ (t & -> & Et) E A. exfalso.
      apply can_absorb_spec in A. destruct A as [G L].
      destruct Lim as [Lim|Lim]; [|rewrite Lim in G; discriminate].
      apply has_text_true in E, Et. simpl in L.
      rewrite !string_length_app in L. simpl in L.
      destruct (strip (seg_text t)); [congruence|].
      destruct (strip (seg_text seg)); [congruence|]. simpl in L. lia. }
  rewrite merger_by_groups.
  rewrite (singletons_of_concat _ (groups_of segments)) at 1.
  - rewrite merger_groups_concat, map_map. apply map_ext.
    intros t. apply cue_of_single.
  - eapply Forall_impl; [|exact S]. intros g (t & -> & _). now exists t.
Qed.


End WithTime.

Lemma float_ltb_nan (x : float) : PrimFloat.ltb x nan_gap = false.
Proof.
  rewrite ltb_spec. unfold SFltb, SFcompare.
  change (Prim2SF nan_gap) with S754_nan.
  destruct (Prim2SF x); reflexivity.
Qed.

Lemma nothing_merged_witness :
  (forall x : float, tlt x nan_gap = false)
  /\ sentence_segments_merger scenario_tokens 80%Z nan_gap
     = map seed scenario_tokens.
Proof.
  split; [exact float_ltb_nan|].
  exact (@nothing_merged float float_time 80%Z nan_gap scenario_tokens
           (or_intror float_ltb_nan)).
Defined.

End CueShapeFacts.

(* ===================================================================== *)
(** ** More on the translator: what it leaves alone *)
(* ===================================================================== *)

Module TextShapeFacts.
Import PyStr PyStrFacts Phonetic ScanFacts PhoneticFacts TextShape.

Local Abbreviation words := (keys phonetic_to_letter).
Local Abbreviation scan := (re_sub words replace_match_and_bold).

(** *** Texts without a match *)

Lemma no_match_tail ws thatp c s :
  no_match ws thatp (String c s) -> no_match ws (is_word c) s.
Proof. intros N a b E. apply (N (String c a) b). simpl. now rewrite E. Qed.

Lemma unchanged_without_match ws repl (s : string) : forall thatp,
  no_match ws thatp s -> re_sub ws repl thatp s = Some s.
Proof.
  induction s as [|c s IH]; intros thatp N.
  - now rewrite re_sub_equation_1.
  - pose proof (N "" (String c s) eq_refl) as N0. simpl in N0.
    rewrite re_sub_cons, N0.
    now rewrite (IH _ (no_match_tail _ _ _ _ N)).
Qed.

(** X7. A text in which the pattern matches at no position is returned
  as it is. *)
Theorem translate_without_match (s : string) :
  no_match words false s -> translate_phonetic_alphabet s = Some s.
Proof. apply unchanged_without_match. Qed.

(** *** Texts without letters *)

Lemma to_lower_letter (c : ascii) :
  between 97 122 (to_lower c) = true -> is_ascii_letter c = true.
Proof. destruct c as [[] [] [] [] [] [] [] []]; vm_compute; congruence. Qed.

Lemma keys_start_with_letter :
  Forall (fun k => match k with
                   | EmptyString => False
                   | String p _ => between 97 122 p = true
                   end) words.
Proof. simpl. repeat (constructor; [reflexivity|]). constructor. Qed.

(** A phonetic word, in any case, starts with a letter. *)
Lemma key_starts_with_letter (m : string) :
  is_key_ci words m = true ->
  exists c m', m = String c m' /\ is_ascii_letter c = true.
Proof.
  intros K. unfold is_key_ci in K. apply existsb_exists in K.
  destruct K as (k & Hin & E). apply String.eqb_eq in E.
  pose proof keys_start_with_letter as L. rewrite Forall_forall in L.
  specialize (L k Hin). pose proof keys_lower as Lo.
  rewrite Forall_forall in Lo. rewrite (Lo k Hin) in E.
  destruct k as [|p k]; [contradiction|].
  destruct m as [|c m]; [discriminate|]. simpl in E. injection E as E _.
  exists c, m. split; [reflexivity|]. apply to_lower_letter. now rewrite <- E.
Qed.

Lemma no_letter_app (a b : string) :
  no_letter (a ++ b) = no_letter a && no_letter b.
Proof.
  induction a as [|c a IH]; simpl; [reflexivity|].
  now rewrite IH, andb_assoc.
Qed.

Lemma no_letter_no_match (s : string) (thatp : bool) :
  no_letter s = true -> no_match words thatp s.
Proof.
  intros L a b ->. rewrite no_letter_app in L.
  apply andb_true_iff in L. destruct L as [_ L].
  destruct (pattern_match words (thatp_after thatp a) b) as [[m rest]|] eqn:M;
    [exfalso|reflexivity].
  unfold pattern_match in M. destruct (at_boundary _ b); [|discriminate].
  destruct (alternatives_sound _ _ _ _ _ M) as [-> K].
  destruct (key_starts_with_letter m K) as (c & m' & -> & Hc).
  simpl in L. rewrite Hc in L. discriminate.
Qed.

(** X8. A text without any letter [A]..[Z], [a]..[z] is returned as it
  is: digits, punctuation, spaces and line ends are never touched. *)
Theorem translate_without_letters (s : string) :
  no_letter s = true -> translate_phonetic_alphabet s = Some s.
Proof.
  intros L. apply unchanged_without_match. now apply no_letter_no_match.
Qed.

(** *** Separators *)

Lemma word_ends_before_separator (rest b : string) (d : ascii) :
  word_ends_here rest = true -> is_word d = false ->
  word_ends_here (rest ++ String d b) = true.
Proof. intros E D. destruct rest; simpl; [now rewrite D | exact E]. Qed.

Lemma scan_split (n : nat) : forall a thatp b d,
  String.length a <= n -> is_word d = false ->
  scan thatp (a ++ String d b)
  = match scan thatp a with
    | Some x => then_text (fun y => x ++ String d y) (scan false b)
    | None => None
    end.
Proof.
  induction n as [|n IH]; intros a thatp b d L D.
  - destruct a; [|simpl in L; lia]. cbn [append].
    rewrite re_sub_equation_1, (scan_nonword thatp d b D).
    destruct (scan false b); reflexivity.
  - destruct a as [|c a].
    { cbn [append]. rewrite re_sub_equation_1, (scan_nonword thatp d b D).
      destruct (scan false b); reflexivity. }
    simpl in L. destruct (is_word c) eqn:C.
    + destruct thatp.
      * change (String c a ++ String d b) with (String c (a ++ String d b)).
        rewrite !(scan_in_word c _ C), (IH a true b d) by (lia || exact D).
        destruct (scan true a), (scan false b); reflexivity.
      * destruct (span_word (String c a)) as (w & rest & Es & W & R).
        assert (N : w <> "").
        { intros ->. simpl in Es. subst rest. simpl in R.
          rewrite C in R. discriminate. }
        assert (Lr : String.length rest <= n).
        { apply (f_equal String.length) in Es.
          rewrite string_length_app in Es. simpl in Es.
          destruct w; [congruence | simpl in Es; lia]. }
        rewrite Es, CueShapeFacts.string_app_assoc.
        rewrite (scan_word w (rest ++ String d b) N W
                   (word_ends_before_separator rest b d R D)).
        rewrite (scan_word w rest N W R), (IH rest true b d Lr D).
        destruct (is_key_ci words w).
        -- destruct (replace_match_and_bold w); [|reflexivity].
           destruct (scan true rest), (scan false b); simpl;
             rewrite ?CueShapeFacts.string_app_assoc; reflexivity.
        -- destruct (scan true rest), (scan false b); simpl;
             rewrite ?CueShapeFacts.string_app_assoc; reflexivity.
    + change (String c a ++ String d b) with (String c (a ++ String d b)).
      rewrite !(scan_nonword thatp c _ C), (IH a false b d) by (lia || exact D).
      destruct (scan false a), (scan false b); reflexivity.
Qed.



(** *** Nothing is left to translate *)

Lemma pattern_match_empty thatp : pattern_match words thatp "" = None.
Proof.
  unfold pattern_match. destruct (at_boundary thatp ""); [|reflexivity].
  pose proof keys_plain as P. unfold plain_words in P.
  induction P as [|k ks [Kne _] _ IH]; simpl; [reflexivity|].
  destruct k; [congruence | exact IH].
Qed.

Lemma no_match_cons ws thatp c t :
  pattern_match ws thatp (String c t) = None ->
  no_match ws (is_word c) t -> no_match ws thatp (String c t).
Proof.
  intros M N a b E. destruct a as [|x a]; simpl in *.
  - now subst b.
  - injection E as <- E. now apply N.
Qed.

Lemma no_match_nonword thatp d t :
  is_word d = false -> no_match words false t ->
  no_match words thatp (String d t).
Proof.
  intros D N. apply no_match_cons; [|now rewrite D].
  unfold pattern_match.
  rewrite (alternatives_nonword words thatp d t keys_plain D).
  now destruct (at_boundary _ _).
Qed.

Lemma no_match_in_word_char c t :
  is_word c = true -> no_match words true t ->
  no_match words true (String c t).
Proof.
  intros C N. apply no_match_cons; [|now rewrite C].
  unfold pattern_match, at_boundary. cbn [this_is_word]. now rewrite C.
Qed.

Lemma no_match_in_word w t :
  all_word w = true -> no_match words true t -> no_match words true (w ++ t).
Proof.
  induction w as [|c w IH]; simpl; intros W N; [exact N|].
  apply andb_true_iff in W. destruct W as [C W].
  apply no_match_in_word_char; auto.
Qed.

(** A whole word that is no phonetic word gives no match. *)
Lemma no_match_word w t :
  w <> "" -> all_word w = true -> is_key_ci words w = false ->
  word_ends_here t = true -> no_match words true t ->
  no_match words false (w ++ t).
Proof.
  intros Ne W K E N. destruct w as [|c w]; [congruence|].
  change (String c w ++ t) with (String c (w ++ t)).
  apply no_match_cons.
  - change (String c (w ++ t)) with (String c w ++ t).
    unfold pattern_match.
    rewrite (alternatives_word words false (String c w) t keys_plain W E), K.
    now destruct (at_boundary _ _).
  - simpl in W. apply andb_true_iff in W. destruct W as [C W].
    rewrite C. now apply no_match_in_word.
Qed.

Lemma no_match_bold t :
  word_ends_here t = true -> no_match words true t ->
  no_match words false (bold "N" ++ t).
Proof.
  intros E N. unfold bold. simpl.
  apply no_match_nonword; [reflexivity|].
  apply no_match_nonword; [reflexivity|].
  match goal with
  | |- no_match _ _ (String "1" (String "m" (String "N" ?r))) =>
      change (String "1" (String "m" (String "N" r))) with ("1mN" ++ r)
  end.
  apply no_match_word; try reflexivity; try discriminate.
  apply no_match_nonword; [reflexivity|].
  apply no_match_nonword; [reflexivity|].
  change (String "0" (String "m" t)) with ("0m" ++ t).
  apply no_match_word; try reflexivity; try discriminate; assumption.
Qed.

Lemma scan_leaves_no_match (n : nat) : forall s thatp t,
  String.length s <= n -> scan thatp s = Some t -> no_match words thatp t.
Proof.
  induction n as [|n IH]; intros s thatp t L S.
  - destruct s; [|simpl in L; lia]. rewrite re_sub_equation_1 in S.
    injection S as <-. intros a b E.
    destruct a; [|discriminate]. simpl in E. subst b.
    apply pattern_match_empty.
  - destruct s as [|c s].
    { rewrite re_sub_equation_1 in S. injection S as <-. intros a b E.
      destruct a; [|discriminate]. simpl in E. subst b.
      apply pattern_match_empty. }
    simpl in L. destruct (is_word c) eqn:C.
    + destruct thatp.
      * rewrite (scan_in_word c s C) in S.
        destruct (scan true s) as [t'|] eqn:S'; [|discriminate].
        injection S as <-. apply no_match_in_word_char; [exact C|].
        apply (IH s true t'); [lia | exact S'].
      * destruct (span_word (String c s)) as (w & rest & Es & W & R).
        assert (N : w <> "").
        { intros ->. simpl in Es. subst rest. simpl in R.
          rewrite C in R. discriminate. }
        assert (Lr : String.length rest <= n).
        { apply (f_equal String.length) in Es.
          rewrite string_length_app in Es. simpl in Es.
          destruct w; [congruence | simpl in Es; lia]. }
        rewrite Es, (scan_word w rest N W R) in S.
        destruct (scan true rest) as [tr|] eqn:Sr.
        2:{ destruct (is_key_ci words w); [|discriminate].
            destruct (replace_match_and_bold w); discriminate. }
        pose proof (IH rest true tr Lr Sr) as Nr.
        pose proof (re_sub_word_end _ _ keys_plain rest tr R Sr) as Rt.
        destruct (is_key_ci words w) eqn:K.
        -- destruct (replace_matched w K) as (X & _ & Up & Rp).
           rewrite Rp in S. simpl in S. injection S as <-.
           destruct (String.eqb (lower w) "november").
           ++ now apply no_match_bold.
           ++ apply no_match_word; auto; try discriminate.
              ** simpl. rewrite andb_true_r. unfold is_word.
                 now rewrite Up, !orb_true_r.
              ** apply short_not_key. simpl. lia.
        -- simpl in S. injection S as <-. now apply no_match_word.
    + rewrite (scan_nonword thatp c s C) in S.
      destruct (scan false s) as [t'|] eqn:S'; [|discriminate].
      injection S as <-. apply no_match_nonword; [exact C|].
      apply (IH s false t'); [lia | exact S'].
Qed.



Lemma translate_without_match_witness :
  no_match words false "ab!"
  /\ translate_phonetic_alphabet "ab!" = Some "ab!".
Proof.
  assert (N : no_match words false "ab!").
  { intros a b E.
    destruct a as [|x [|y [|z [|u a]]]]; simpl in E;
      try (injection E as <- <- <- E; destruct a; discriminate);
      [subst b | injection E as <- <- | injection E as <- <- <-
      | injection E as <- <- <- <-]; vm_compute; reflexivity. }
  split; [exact N | exact (translate_without_match "ab!" N)].
Defined.

Lemma translate_without_letters_witness :
  no_letter "00:00:01,000 --> 00:00:02,500" = true
  /\ translate_phonetic_alphabet "00:00:01,000 --> 00:00:02,500"
     = Some "00:00:01,000 --> 00:00:02,500".
Proof.
  split; [reflexivity|].
  exact (translate_without_letters "00:00:01,000 --> 00:00:02,500" eq_refl).
Defined.


End TextShapeFacts.

(* ===================================================================== *)
(** ** Facts about the callers *)
(* ===================================================================== *)

Module PipelineFacts.
Import PyStr PyStrFacts Merger MergerFacts Serializer SerializerFacts.
Import Pipeline.
Local Open Scope list_scope.

Section WithTime.
Context {time : Type} `{TimeOps time}.
Variables (max_text_len : Z) (max_segment_interval : time).

Local Abbreviation merge segs :=
  (sentence_segments_merger segs max_text_len max_segment_interval).

(** *** The tokens that [main] gives to the merger *)

Lemma tokens_of_words_trimmed (ws : list (word_info time)) :
  Forall (fun t => strip (seg_text t) = seg_text t /\ seg_text t <> ""%string)
         (tokens_of_words ws).
Proof.
  apply Forall_forall. intros t Hin. unfold tokens_of_words in Hin.
  apply in_flat_map in Hin. destruct Hin as (j & _ & Hj).
  destruct (is_empty (strip (word j))) eqn:E; [destruct Hj|].
  destruct Hj as [<-|[]]. simpl. split; [apply strip_idem|].
  now apply is_empty_false.
Qed.

Lemma segments_lst_trimmed (segments : list (transcribed time)) :
  Forall (fun t => strip (seg_text t) = seg_text t /\ seg_text t <> ""%string)
         (segments_lst segments).
Proof.
  apply Forall_forall. intros t Hin. unfold segments_lst in Hin.
  apply in_flat_map in Hin. destruct Hin as (i & _ & Hi).
  destruct (words i) as [ws|]; [|destruct Hi].
  pose proof (tokens_of_words_trimmed ws) as F.
  rewrite Forall_forall in F. now apply F.
Qed.

(** X11. The tokens that [main] builds from the transcription all have a
  trimmed, non-empty text, so the merger skips none of them: put end to
  end, the groups of the cues are exactly these tokens. *)
Theorem main_tokens_fit_merger (segments : list (transcribed time)) :
  let tokens := segments_lst segments in
  Forall (fun t => strip (seg_text t) = seg_text t /\ seg_text t <> ""%string)
         tokens
  /\ filter has_text tokens = tokens
  /\ List.concat (merger_groups tokens max_text_len max_segment_interval)
     = tokens.
Proof.
  intros tokens. pose proof (segments_lst_trimmed segments) as F.
  fold tokens in F. split; [exact F|].
  assert (T : forall seg, In seg tokens -> strip (seg_text seg) <> ""%string).
  { rewrite Forall_forall in F. intros seg Hin.
    destruct (F seg Hin) as [-> N]. exact N. }
  split; [|now apply merger_groups_partition].
  apply filter_all. intros seg Hin. apply has_text_true. now apply T.
Qed.

(** *** The cues as subtitles *)

Lemma merge_texts_trimmed (segments : list (segment time)) :
  map (fun v => strip (seg_text v)) (merge segments)
  = map seg_text (merge segments).
Proof.
  rewrite merger_by_groups, !map_map. apply map_ext. intros g.
  unfold cue_of_group, seal. simpl. apply strip_idem.
Qed.

End WithTime.

Section WithDelta.
Context {time delta : Type} `{TimeOps time}.
Variable timedelta : time -> option delta.
Variables (max_text_len : Z) (max_segment_interval : time).

(** X12. The subtitles built from the cues of the merger carry the texts
  of the cues as they are (the trimming of [main] changes nothing), one
  subtitle per cue. *)
Theorem subtitles_carry_cue_texts (segments : list (segment time)) subs :
  result_srt_list timedelta
    (sentence_segments_merger segments max_text_len max_segment_interval)
  = Some subs ->
  map content subs
  = map seg_text
      (sentence_segments_merger segments max_text_len max_segment_interval)
  /\ List.length subs
     = List.length
         (sentence_segments_merger segments max_text_len
            max_segment_interval).
Proof.
  intros E. destruct (result_srt_list_shape timedelta _ _ E) as [Hi Hc].
  split; [now rewrite Hc, merge_texts_trimmed|].
  apply (f_equal (@List.length _)) in Hi.
  now rewrite length_map, length_seq in Hi.
Qed.

End WithDelta.

Lemma subtitles_carry_cue_texts_witness :
  result_srt_list (fun x : float => Some x)
    (sentence_segments_merger scenario_tokens 80%Z 2.0%float)
  = Some [ mk_Subtitle 0 0.0%float 0.5%float "a b";
           mk_Subtitle 1 3.0%float 3.2%float "c" ]
  /\ map content [ mk_Subtitle 0 0.0%float 0.5%float "a b";
                  mk_Subtitle 1 3.0%float 3.2%float "c" ]
     = map seg_text
         (sentence_segments_merger scenario_tokens 80%Z 2.0%float).
Proof.
  assert (E : result_srt_list (fun x : float => Some x)
                (sentence_segments_merger scenario_tokens 80%Z 2.0%float)
              = Some [ mk_Subtitle 0 0.0%float 0.5%float "a b";
                       mk_Subtitle 1 3.0%float 3.2%float "c" ])
    by (vm_compute; reflexivity).
  split; [exact E|].
  exact (proj1 (@subtitles_carry_cue_texts float float float_time
                  (fun x => Some x) 80%Z 2.0%float scenario_tokens _ E)).
Defined.

End PipelineFacts.

(* ===================================================================== *)
(** ** Facts about the call of the speech model *)
(* ===================================================================== *)

Module TranscriptionFacts.
Import Transcription.
Local Open Scope list_scope.

Lemma dict_lookup_set_same (d : pydict) k v :
  dict_lookup (dict_set d k v) k = Some v.
Proof.
  induction d as [|[k' v'] d IH]; simpl.
  - now rewrite String.eqb_refl.
  - destruct (String.eqb k' k) eqn:E; simpl; rewrite E; [reflexivity | exact IH].
Qed.

Lemma dict_lookup_set_other (d : pydict) k v k0 :
  k <> k0 -> dict_lookup (dict_set d k v) k0 = dict_lookup d k0.
Proof.
  intros N. induction d as [|[k' v'] d IH]; simpl.
  - apply String.eqb_neq in N. now rewrite N.
  - destruct (String.eqb k' k) eqn:E; simpl.
    + apply String.eqb_eq in E. subst k'.
      apply String.eqb_neq in N. now rewrite N.
    + destruct (String.eqb k' k0); [reflexivity | exact IH].
Qed.

(** A key that [other] does not hold keeps its value. *)
Lemma dict_update_keeps (other : pydict) : forall d k,
  ~ In k (map fst other) ->
  dict_lookup (dict_update d other) k = dict_lookup d k.
Proof.
  induction other as [|[k0 v0] other IH]; intros d k N; simpl;
    [reflexivity|].
  unfold dict_update in *. simpl in *. rewrite IH by tauto.
  apply dict_lookup_set_other. tauto.
Qed.

(** A key that [other] holds takes the value it has there. *)
Lemma dict_update_takes (other : pydict) : forall d k v,
  NoDup (map fst other) -> In (k, v) other ->
  dict_lookup (dict_update d other) k = Some v.
Proof.
  induction other as [|[k0 v0] other IH]; intros d k v D Hin;
    [destruct Hin|].
  simpl in D. apply NoDup_cons_iff in D. destruct D as [N D].
  destruct Hin as [E|Hin].
  - injection E as -> ->.
    change (dict_update d ((k, v) :: other))
      with (dict_update (dict_set d k v) other).
    rewrite dict_update_keeps by exact N. apply dict_lookup_set_same.
  - change (dict_update d ((k0, v0) :: other))
      with (dict_update (dict_set d k0 v0) other).
    now apply IH.
Qed.

Section WithModel.
Variables S I : Type.

(** X13. The model is called with the default parameters updated by the
  keyword arguments: a key given by the caller has the caller's value (a
  given [vad_parameters] replaces the nested defaults as a whole), and a
  key not given keeps its default, such as [word_timestamps = True].
  Without a model nothing is called and the result is [(None, None)]. *)
Theorem transcribe_audio_parameters (m : whisper_model S I)
    (filename : string) (kwargs : pydict) :
  NoDup (map fst kwargs) ->
  let params := dict_update default_params kwargs in
  transcribe_audio S I (Some m) filename kwargs = m filename params
  /\ (forall k v, In (k, v) kwargs -> dict_lookup params k = Some v)
  /\ (forall k, ~ In k (map fst kwargs) ->
        dict_lookup params k = dict_lookup default_params k)
  /\ transcribe_audio S I None filename kwargs = None.
Proof.
  intros D params. split; [reflexivity|]. split; [|split; [|reflexivity]].
  - intros k v Hin. now apply dict_update_takes.
  - intros k N. now apply dict_update_keeps.
Qed.

End WithModel.

Lemma transcribe_audio_parameters_witness :
  NoDup (map fst sample_kwargs)
  /\ dict_lookup (dict_update default_params sample_kwargs) "vad_parameters"
     = Some (PDict [ ("threshold", PFloat 0.5%float) ])
  /\ dict_lookup (dict_update default_params sample_kwargs) "word_timestamps"
     = Some (PBool true).
Proof.
  assert (D : NoDup (map fst sample_kwargs)).
  { simpl. repeat constructor; simpl; intuition discriminate. }
  split; [exact D|].
  destruct (transcribe_audio_parameters unit unit (fun _ _ => None)
              "audio.mp3" sample_kwargs D) as (_ & Takes & Keeps & _).
  split.
  - apply Takes. simpl. tauto.
  - rewrite Keeps; [reflexivity|]. simpl. intuition discriminate.
Defined.

End TranscriptionFacts.

(* ===================================================================== *)
(** ** More on the cues: where they break *)
(* ===================================================================== *)

Module CueBreakFacts.
Import PyStr PyStrFacts Merger MergerFacts CueBreaks.
Local Open Scope list_scope.

Lemma Sorted_app_r (A : Type) (R : A -> A -> Prop) (l1 l2 : list A) :
  Sorted R (l1 ++ l2) -> Sorted R l2.
Proof.
  induction l1 as [|a l1 IH]; simpl; intros S; [exact S|].
  apply Sorted_inv in S. now apply IH.
Qed.

Lemma Sorted_app_mid (A : Type) (R : A -> A -> Prop) (l r : list A) x y :
  Sorted R (l ++ x :: y :: r) -> R x y.
Proof.
  intros S. apply Sorted_app_r in S. apply Sorted_inv in S.
  destruct S as [_ Hd]. now apply HdRel_inv in Hd.
Qed.

(** In a concatenation whose neighbours are related, the last element of a
  group is related to the first element of the next group. *)
Lemma Sorted_concat_joints (A : Type) (R : A -> A -> Prop) (d : A)
    (gs : list (list A)) :
  Forall (fun g => g <> []) gs ->
  Sorted R (List.concat gs) ->
  Sorted (fun g g' => R (last g d) (hd d g')) gs.
Proof.
  induction 1 as [|g gs N F IH]; simpl; intros S; [constructor|].
  constructor; [apply IH; now apply Sorted_app_r in S|].
  destruct gs as [|g' gs]; constructor.
  apply Forall_inv in F. destruct g' as [|y g']; [congruence|].
  destruct (exists_last N) as (l & x & ->). rewrite last_last. simpl in *.
  rewrite <- app_assoc in S. simpl in S.
  now apply Sorted_app_mid in S.
Qed.

Lemma Sorted_map (A B : Type) (R : B -> B -> Prop) (f : A -> B) (l : list A) :
  Sorted (fun a b => R (f a) (f b)) l -> Sorted R (map f l).
Proof.
  induction 1 as [|a l S IH Hd]; simpl; constructor; [exact IH|].
  destruct Hd; simpl; constructor; assumption.
Qed.

Section WithTime.
Context {time : Type} `{TimeOps time}.
Variables (max_text_len : Z) (max_segment_interval : time).

Local Abbreviation merge segs :=
  (sentence_segments_merger segs max_text_len max_segment_interval).
Local Abbreviation groups_of segs :=
  (merger_groups segs max_text_len max_segment_interval).

(** X14. When every token has text and no token starts before the one
  before it has ended (in any sense [tle] of "no later than"), no cue
  starts before the cue before it has ended. *)
Theorem cues_do_not_overlap (tle : time -> time -> Prop)
    (segments : list (segment time)) :
  (forall seg, In seg segments -> strip (seg_text seg) <> ""%string) ->
  Sorted (fun a b => tle (seg_end a) (seg_start b)) segments ->
  Sorted (fun a b => tle (seg_end a) (seg_start b)) (merge segments).
Proof.
  intros Htext S.
  pose proof (merger_groups_partition max_text_len max_segment_interval
                segments Htext) as C.
  pose proof (merger_groups_nonempty max_text_len max_segment_interval
                segments) as N.
  rewrite <- C in S.
  pose proof (Sorted_concat_joints _ _ current_segment_template _ N S) as J.
  rewrite merger_by_groups. apply Sorted_map.
  assert (M : forall gs : list (list (segment time)),
            Forall (fun g => g <> []) gs ->
            Sorted (fun g g' =>
                      tle (seg_end (last g current_segment_template))
                          (seg_start (hd current_segment_template g'))) gs ->
            Sorted (fun g g' =>
                      tle (seg_end (cue_of_group g))
                          (seg_start (cue_of_group g'))) gs).
  { induction 1 as [|g gs Ng F IH]; intros Sg; constructor.
    - apply IH. now apply Sorted_inv in Sg.
    - apply Sorted_inv in Sg. destruct Sg as [_ Hd].
      destruct Hd as [|g' gs' R]; constructor.
      apply Forall_inv in F. unfold cue_of_group, seal.
      cbn [set_text seg_start seg_end].
      rewrite (accumulate_end g current_segment_template Ng).
      now rewrite (accumulate_start g' current_segment_template F). }
  now apply M.
Qed.

(** *** Every break has a reason *)

Lemma Sorted_replace_last (A : Type) (R : A -> A -> Prop) (l : list A) x x' :
  (forall y, R y x -> R y x') ->
  Sorted R (l ++ [x]) -> Sorted R (l ++ [x']).
Proof.
  intros Rx. induction l as [|a l IH]; simpl; intros S.
  - repeat constructor.
  - apply Sorted_inv in S. destruct S as [S Hd].
    constructor; [now apply IH|].
    destruct l as [|b l]; simpl in *.
    + constructor. apply Rx. now apply HdRel_inv in Hd.
    + constructor. now apply HdRel_inv in Hd.
Qed.

Local Abbreviation tstep :=
  (traced_step max_text_len max_segment_interval).
Local Abbreviation forced :=
  (break_forced max_text_len max_segment_interval).

Lemma breaks_forced_step ts seg :
  traced_inv ts ->
  Sorted forced (groups_so_far ts) ->
  Sorted forced (groups_so_far (tstep ts seg)).
Proof.
  intros [_ Ho] S. unfold groups_so_far in *.
  destruct (has_text seg) eqn:E;
    [|now rewrite (tstep_skip max_text_len max_segment_interval ts seg E)].
  destruct (is_current_segment_empty (loop_of ts)) eqn:F.
  - rewrite (tstep_open max_text_len max_segment_interval ts seg E F).
    simpl. destruct Ho as [-> _]. repeat constructor.
  - destruct Ho as [Hne Hc].
    destruct (can_absorb max_text_len max_segment_interval
                (current_segment (loop_of ts)) (strip (seg_text seg)) seg)
      eqn:A.
    + rewrite (tstep_absorb max_text_len max_segment_interval ts seg E F A).
      simpl. apply Sorted_replace_last with (x := open_group ts);
        [|exact S].
      intros y. destruct (open_group ts); [congruence | exact (fun r => r)].
    + rewrite (tstep_seal max_text_len max_segment_interval ts seg E F A).
      simpl. apply Sorted_snoc with (d := open_group ts); [exact S|].
      intros _. rewrite last_last. unfold break_forced. now rewrite <- Hc.
Qed.

Lemma breaks_forced_fold (segs : list (segment time)) : forall ts,
  traced_inv ts ->
  Sorted forced (groups_so_far ts) ->
  Sorted forced (groups_so_far (fold_left tstep segs ts)).
Proof.
  induction segs as [|seg segs IH]; intros ts I S; simpl; [exact S|].
  apply IH; [now apply traced_inv_step | now apply breaks_forced_step].
Qed.

(** X15. The merger is greedy: a cue ends only where it has to.  For two
  cues that follow each other, the first token of the later one failed the
  test of the loop (gap or length) against the earlier cue as it stood. *)
Theorem breaks_are_forced (segments : list (segment time)) :
  merge segments = map cue_of_group (groups_of segments)
  /\ Sorted forced (groups_of segments).
Proof.
  split; [apply merger_by_groups|].
  destruct segments as [|s0 segs]; [constructor|].
  apply (breaks_forced_fold (s0 :: segs) traced_initial);
    [apply traced_inv_initial | constructor].
Qed.


End WithTime.

Lemma touching_tokens_have_text :
  forall seg, In seg touching_tokens -> strip (seg_text seg) <> ""%string.
Proof. intros seg [<-|[<-|[<-|[]]]]; vm_compute; discriminate. Defined.

Lemma cues_do_not_overlap_witness :
  Sorted (fun a b => float_le (seg_end a) (seg_start b)) touching_tokens
  /\ Sorted (fun a b => float_le (seg_end a) (seg_start b))
       (sentence_segments_merger touching_tokens 80%Z 2.0%float).
Proof.
  assert (S : Sorted (fun a b => float_le (seg_end a) (seg_start b))
                     touching_tokens) by (repeat constructor).
  split; [exact S|].
  exact (@cues_do_not_overlap float float_time 80%Z 2.0%float float_le
           touching_tokens touching_tokens_have_text S).
Defined.

End CueBreakFacts.
